(** * oemof.core.energy_system: the energy system container, regions and
      simulation parameters

    A shallow embedding of [src/oemof/core/energy_system.py] and the
    properties its specification states about it.

    Python objects are mutable and shared.  The embedding keeps that visible:
    - every operation of [EnergySystem] is a state transformer that returns
      the container afterwards together with its outcome (a value or the
      exception raised), because an operation that raises has usually
      already changed the container;
    - a grouping, called as [g(entity, groups)], mutates the one [groups]
      dict of the container in place, so it is a function from the dict
      before to the dict afterwards and the exception it raised, if any;
    - the [regions] list of an entity lives in a store indexed by the
      identity of the entity, so that an entity listed twice is one object. *)

From Stdlib Require Import Ascii.
From stdpp Require Import base option list gmap strings.

Set Warnings "-register-all".

(** ** Python values, exceptions and outcomes *)

Module Py.

(** The values that only pass through the code (solver name, flags,
    timesteps, geometry, results, ...). *)
Inductive PyVal : Type :=
| PNone
| PBool (b : bool)
| PInt (z : Z)
| PStr (s : string)
| PList (l : list PyVal)
| PDict (kvs : list (PyVal * PyVal)).

(** [x is None] *)
Definition is_None (v : PyVal) : bool :=
  match v with PNone => true | _ => false end.

Inductive Exn : Type :=
| ValueError (msg : string)
| AttributeError (msg : string)
| UserError (tag : nat).

(** The outcome of a call: it returns a value or raises. *)
Inductive result (A : Type) : Type :=
| Ok (a : A)
| Raise (x : Exn).
Arguments Ok {A} a.
Arguments Raise {A} x.

(** [kwargs.get(key, default)] and [kwargs.get(key)] *)
Definition kwargs_get (kwargs : gmap string PyVal) (key : string)
    (dflt : PyVal) : PyVal :=
  default dflt (kwargs !! key).

Definition kwargs_get1 (kwargs : gmap string PyVal) (key : string) : PyVal :=
  kwargs_get kwargs key PNone.

End Py.
Import Py.

(** ** Entities and groupings ([oemof.core.network], [oemof.groupings]) *)

Module Groupings.

(** An entity: [oid] is the identity of the Python object (what [is]
    compares), [uid] its [uid] attribute. *)
Record Entity : Type := { oid : nat; uid : string }.

#[global] Instance Entity_eq_dec : EqDecision Entity.
Proof. solve_decision. Defined.

#[global] Instance Entity_countable : Countable Entity.
Proof.
  refine (inj_countable' (fun e => (oid e, uid e))
            (fun p => {| oid := p.1; uid := p.2 |}) _).
  by intros [].
Defined.

(** A value of the [groups] dict: the entity itself (the group of a uid) or
    a set of entities. *)
Inductive GroupVal : Type :=
| One (e : Entity)
| Many (s : gset Entity).

Abbreviation Groups := (gmap string GroupVal).

(** A grouping is called as [g(entity, groups)] for its effect on [groups]:
    the dict afterwards, and the exception if the call raised. *)
Definition Grouping : Type := Entity -> Groups -> Groups * option Exn.

(** Modelled from the spec: [oemof.groupings.DEFAULT], imported as [BY_UID],
    is not part of the sources.  The specification (4.2) says of it: the
    default grouping maps every entity to a singleton group keyed by its own
    uid, by direct assignment, so that the last writer for a uid wins. *)
Definition BY_UID : Grouping :=
  fun e groups => (<[uid e := One e]> groups, None).

End Groupings.
Import Groupings.

(** ** class EnergySystem *)

Module ES.

(** [self._groups] is either the dict or the callable
    [partial(self._regroup, entity, groups, groupings)] stored by [add]. *)
Inductive GroupsField : Type :=
| Dict (groups : Groups)
| Partial (entity : Entity) (groups : Groups) (groupings : list Grouping).

(** [callable(self._groups)] *)
Definition callable (f : GroupsField) : bool :=
  match f with Dict _ => false | Partial _ _ _ => true end.

Record EnergySystem : Type := {
  regions : PyVal;
  entities : list Entity;
  simulation : PyVal;
  _groups : GroupsField;
  _groupings : list Grouping;
  results : PyVal;
  time_idx : PyVal
}.

Definition set_groups (f : GroupsField) (es : EnergySystem) : EnergySystem :=
  {| regions := regions es; entities := entities es;
     simulation := simulation es; _groups := f;
     _groupings := _groupings es; results := results es;
     time_idx := time_idx es |}.

Definition set_entities (l : list Entity) (es : EnergySystem) : EnergySystem :=
  {| regions := regions es; entities := l;
     simulation := simulation es; _groups := _groups es;
     _groupings := _groupings es; results := results es;
     time_idx := time_idx es |}.

(** The loop [for g in groupings: g(entity, groups)]: the groupings are
    called in list order on the same dict; the first one that raises ends
    the loop, and what it and its predecessors wrote stays written. *)
Fixpoint for_groupings (groupings : list Grouping) (entity : Entity)
    (groups : Groups) : Groups * option Exn :=
  match groupings with
  | [] => (groups, None)
  | g :: rest =>
      match g entity groups with
      | (groups', None) => for_groupings rest entity groups'
      | (groups', Some x) => (groups', Some x)
      end
  end.

(** [_regroup(entity, groups, groupings)] runs that loop and returns
    [groups]. *)
Definition _regroup (entity : Entity) (groups : Groups)
    (groupings : list Grouping) : Groups * option Exn :=
  for_groupings groupings entity groups.

(** Calling the stored partial, [self._groups()]: [_regroup] returns the
    dict; if a grouping raises there is no value, and the assignment
    [self._groups = ...] does not happen, so the field is still the partial,
    over the dict as the groupings left it. *)
Definition call_partial (entity : Entity) (groups : Groups)
    (groupings : list Grouping) : GroupsField * option Exn :=
  match _regroup entity groups groupings with
  | (groups', None) => (Dict groups', None)
  | (groups', Some x) => (Partial entity groups' groupings, Some x)
  end.

(** The property [groups]:
    [while callable(self._groups): self._groups = self._groups()]
    and then [return self._groups].  [fuel] bounds the iterations; the
    result is the field afterwards and the outcome of the read. *)
Fixpoint groups_while (fuel : nat) (f : GroupsField)
    : option (GroupsField * result Groups) :=
  match f with
  | Dict groups => Some (f, Ok groups)
  | Partial entity groups groupings =>
      match fuel with
      | O => None
      | S fuel' =>
          match call_partial entity groups groupings with
          | (f', None) => groups_while fuel' f'
          | (f', Some x) => Some (f', Raise x)
          end
      end
  end.

(** What the loop computes: a partial returns a dict, which is not
    callable, so the body runs at most once (lemma [groups_while_force]). *)
Definition force (f : GroupsField) : GroupsField * result Groups :=
  match f with
  | Dict groups => (f, Ok groups)
  | Partial entity groups groupings =>
      match _regroup entity groups groupings with
      | (groups', None) => (Dict groups', Ok groups')
      | (groups', Some x) => (Partial entity groups' groupings, Raise x)
      end
  end.

(** An operation on the container: the container afterwards and the
    outcome. *)
Definition M (A : Type) : Type := EnergySystem -> EnergySystem * result A.

#[global] Instance M_ret : MRet M := fun A a es => (es, Ok a).
#[global] Instance M_bind : MBind M := fun A B k m es =>
  match m es with
  | (es', Ok a) => k a es'
  | (es', Raise x) => (es', Raise x)
  end.

Definition groups : M Groups := fun es =>
  let '(f, r) := force (_groups es) in (set_groups f es, r).

(** [add(entity)]: the append comes first; then the arguments of [partial]
    are evaluated, among them the property [self.groups]; then the partial
    is stored. *)
Definition add (entity : Entity) : M unit := fun es =>
  let es1 := set_entities (entities es ++ [entity]) es in
  match groups es1 with
  | (es2, Ok d) => (set_groups (Partial entity d (_groupings es2)) es2, Ok tt)
  | (es2, Raise x) => (es2, Raise x)
  end.

(** The property [nodes] and its setter. *)
Definition nodes : M (list Entity) := fun es => (es, Ok (entities es)).
Definition set_nodes (value : list Entity) : M unit := fun es =>
  (set_entities value es, Ok tt).

(** *** The constructor

    [oemof.groupings.Grouping] (the base class, imported as [GroupingBase])
    and [oemof.groupings.Nodes] (imported as [Grouping]) are not part of the
    sources.  An element of the [groupings] argument is either an instance
    of the base class, hence itself a grouping, or anything else, of a type
    [KeyFn] left open; [Nodes] is whatever builds a grouping from the
    latter. *)
Section Init.

Variable KeyFn : Type.
Variable Nodes : KeyFn -> Grouping.

Inductive GroupingArg : Type :=
| IsGrouping (g : Grouping)
| Other (k : KeyFn).

(** The keyword arguments [__init__] looks at; [None] is an absent key. *)
Record Kwargs : Type := {
  kw_regions : option PyVal;
  kw_entities : option (list Entity);
  kw_simulation : option PyVal;
  kw_groupings : option (list GroupingArg);
  kw_results : option PyVal;
  kw_time_idx : option PyVal
}.

(** [g if isinstance(g, GroupingBase) else Grouping(g)] *)
Definition wrap (g : GroupingArg) : Grouping :=
  match g with
  | IsGrouping g => g
  | Other k => Nodes k
  end.

(** [[BY_UID] + [... for g in kwargs.get('groupings', [])]] *)
Definition make_groupings (kwargs : Kwargs) : list Grouping :=
  [BY_UID] ++ map wrap (default [] (kw_groupings kwargs)).

(** [for e in self.entities: for g in self._groupings: g(e, self.groups)];
    [self._groups] is the dict here, so the property returns it as it is. *)
Fixpoint for_entities (entities : list Entity) (groupings : list Grouping)
    (groups : Groups) : Groups * option Exn :=
  match entities with
  | [] => (groups, None)
  | e :: rest =>
      match for_groupings groupings e groups with
      | (groups', None) => for_entities rest groupings groups'
      | (groups', Some x) => (groups', Some x)
      end
  end.

(** [EnergySystem.__init__]: the container, or the exception of a grouping
    that raised on one of the given entities. *)
Definition init (kwargs : Kwargs) : result EnergySystem :=
  let entities0 := default [] (kw_entities kwargs) in
  let groupings := make_groupings kwargs in
  match for_entities entities0 groupings ∅ with
  | (groups, None) =>
      Ok {| regions := default (PList []) (kw_regions kwargs);
            entities := entities0;
            simulation := default (PList []) (kw_simulation kwargs);
            _groups := Dict groups;
            _groupings := groupings;
            results := default PNone (kw_results kwargs);
            time_idx := default PNone (kw_time_idx kwargs) |}
  | (_, Some x) => Raise x
  end.

End Init.

Arguments IsGrouping {KeyFn} g.
Arguments Other {KeyFn} k.
Arguments kw_regions {KeyFn} k.
Arguments kw_entities {KeyFn} k.
Arguments kw_simulation {KeyFn} k.
Arguments kw_groupings {KeyFn} k.
Arguments kw_results {KeyFn} k.
Arguments kw_time_idx {KeyFn} k.
Arguments wrap {KeyFn} Nodes g.
Arguments make_groupings {KeyFn} Nodes kwargs.
Arguments init {KeyFn} Nodes kwargs.

(** *** Runs: sequences of calls on one container *)

Inductive Op : Type :=
| OAdd (entity : Entity)
| ORead.

(** One call, its value dropped. *)
Definition step (op : Op) : M unit :=
  match op with
  | OAdd e => add e
  | ORead => _ ← groups; mret tt
  end.

(** The calls in order; the first exception ends the run. *)
Fixpoint run (ops : list Op) : M unit :=
  match ops with
  | [] => mret tt
  | op :: rest => _ ← step op; run rest
  end.

(** [for e in l: es.add(e)] and then one read of [es.groups]. *)
Definition add_all_then_read (l : list Entity) : M Groups :=
  _ ← run (map OAdd l); groups.

(** [for e in l: es.add(e); es.groups], and the mapping read last. *)
Definition read_after_each_add (l : list Entity) : M Groups :=
  _ ← run (flat_map (fun e => [OAdd e; ORead]) l); groups.

End ES.

(** ** class Region *)

Module Reg.

(** A region object: [rid] is its identity.  [Region] defines no [__eq__],
    so [self not in entity.regions] compares identities. *)
Record Region : Type := {
  rid : nat;
  entities : list Entity;
  name : PyVal;
  geom : PyVal;
  _code : PyVal
}.

(** The [regions] attribute of every entity object, by object identity: the
    identities of the regions it lists. *)
Definition RegionsOf : Type := nat -> list nat.

(** [entity.regions.append(r)] *)
Definition regions_append (o : nat) (r : nat) (st : RegionsOf) : RegionsOf :=
  fun o' => if decide (o' = o) then st o' ++ [r] else st o'.

Definition set_entities (l : list Entity) (self : Region) : Region :=
  {| rid := rid self; entities := l; name := name self; geom := geom self;
     _code := _code self |}.

Definition set_code (c : PyVal) (self : Region) : Region :=
  {| rid := rid self; entities := entities self; name := name self;
     geom := geom self; _code := c |}.

Definition set_name (n : PyVal) (self : Region) : Region :=
  {| rid := rid self; entities := entities self; name := n;
     geom := geom self; _code := _code self |}.

(** The body of [for entity in entities]:
    [if self not in entity.regions: entity.regions.append(self)] *)
Definition back_reference (r : nat) (st : RegionsOf) (entity : Entity)
    : RegionsOf :=
  if decide (r ∈ st (oid entity)) then st
  else regions_append (oid entity) r st.

(** [add_entities(self, entities)]: the region and the entities
    afterwards. *)
Definition add_entities (self : Region) (ents : list Entity)
    (st : RegionsOf) : Region * RegionsOf :=
  (set_entities (entities self ++ ents) self,
   foldl (back_reference (rid self)) st ents).

(** The keyword arguments of [Region.__init__]; [None] is an absent key. *)
Record Kwargs : Type := {
  kw_entities : option (list Entity);
  kw_name : option PyVal;
  kw_geom : option PyVal;
  kw_code : option PyVal
}.

(** [Region.__init__], for the new object of identity [r]. *)
Definition init (r : nat) (kwargs : Kwargs) (st : RegionsOf)
    : Region * RegionsOf :=
  let self := {| rid := r; entities := []; name := PNone; geom := PNone;
                 _code := PNone |} in
  let '(self, st) := add_entities self (default [] (kw_entities kwargs)) st in
  ({| rid := rid self; entities := entities self;
      name := default PNone (kw_name kwargs);
      geom := default PNone (kw_geom kwargs);
      _code := default PNone (kw_code kwargs) |}, st).

(** *** The short code *)

(** [s.replace('_', ' ')] *)
Fixpoint replace_underscore (s : string) : string :=
  match s with
  | EmptyString => EmptyString
  | String c rest =>
      String (if decide (c = "_"%char) then " "%char else c)
             (replace_underscore rest)
  end.

(** [s.split(' ', 1)] cuts at the first space, if there is one:
    [find_space s] is what stands before and after it. *)
Fixpoint find_space (s : string) : option (string * string) :=
  match s with
  | EmptyString => None
  | String c rest =>
      if decide (c = " "%char) then Some (EmptyString, rest)
      else match find_space rest with
           | Some (before, after) => Some (String c before, after)
           | None => None
           end
  end.

Definition split_space_1 (s : string) : list string :=
  match find_space s with
  | Some (before, after) => [before; after]
  | None => [s]
  end.

(** [part[i:j]] for [0 <= i <= j] *)
Definition slice (i j : nat) (part : string) : string :=
  String.substring i (j - i) part.

Section Code.

(** Python's [str.upper], here only applied to strings of at most one
    character. *)
Variable upper : string -> string.

(** [for part in name_parts: self._code += part[:1].upper() + part[1:3]],
    started from [acc]. *)
Definition code_loop (name_parts : list string) (acc : string) : string :=
  foldl (fun acc part => acc +:+ (upper (slice 0 1 part) +:+ slice 1 3 part))
        acc name_parts.

(** The property [code]: the region afterwards and the outcome.  A name
    that is not a string has no [replace]; the attribute error comes before
    [self._code] is assigned. *)
Definition code (self : Region) : Region * result PyVal :=
  if is_None (_code self) then
    match name self with
    | PStr n =>
        let name_parts := split_space_1 (replace_underscore n) in
        let self := set_code (PStr (code_loop name_parts "")) self in
        (self, Ok (_code self))
    | _ => (self, Raise (AttributeError "replace"))
    end
  else (self, Ok (_code self)).

End Code.

(** [str.upper] on ASCII letters, for examples. *)
Definition ascii_upper_char (c : ascii) : ascii :=
  let n := nat_of_ascii c in
  if decide (97 <= n <= 122) then ascii_of_nat (n - 32) else c.

Fixpoint ascii_upper (s : string) : string :=
  match s with
  | EmptyString => EmptyString
  | String c rest => String (ascii_upper_char c) (ascii_upper rest)
  end.

End Reg.

(** ** class Simulation *)

Module Sim.

Record Simulation : Type := {
  solver : PyVal;
  debug : PyVal;
  verbose : PyVal;
  objective_options : PyVal;
  duals : PyVal;
  timesteps : PyVal;
  relaxed : PyVal;
  fast_build : PyVal;
  solve_kwargs : PyVal
}.

(** [Simulation.__init__] *)
Definition init (kwargs : gmap string PyVal) : result Simulation :=
  let self :=
    {| solver := kwargs_get kwargs "solver" (PStr "glpk");
       debug := kwargs_get kwargs "debug" (PBool false);
       verbose := kwargs_get kwargs "verbose" (PBool false);
       objective_options := kwargs_get kwargs "objective_options" (PDict []);
       duals := kwargs_get kwargs "duals" (PBool false);
       timesteps := kwargs_get1 kwargs "timesteps";
       relaxed := kwargs_get kwargs "relaxed" (PBool false);
       fast_build := kwargs_get kwargs "fast_build" (PBool false);
       solve_kwargs := kwargs_get kwargs "solve_kwargs" (PDict []) |} in
  if is_None (timesteps self) then Raise (ValueError "No timesteps defined!")
  else Ok self.

End Sim.

Import ES.

(** ** Vocabulary of the properties *)

(** The entities whose fold is still queued in the field. *)
Definition pending (f : GroupsField) : list Entity :=
  match f with
  | Dict _ => []
  | Partial e _ _ => [e]
  end.

(** The dict object the field holds or closes over. *)
Definition stored (f : GroupsField) : Groups :=
  match f with
  | Dict d => d
  | Partial _ d _ => d
  end.

(** The entities a run adds, in order. *)
Definition adds_of (ops : list Op) : list Entity :=
  flat_map (fun op => match op with OAdd e => [e] | ORead => [] end) ops.

(** The entity of uid [u] added last among [l]. *)
Definition last_by_uid (u : string) (l : list Entity) : option Entity :=
  last (filter (fun e => uid e = u) l).


(** A grouping that raises on exactly one entity and writes nothing. *)
Definition raises_on (bad : Entity) (x : Exn) : Grouping :=
  fun e d => if decide (e = bad) then (d, Some x) else (d, None).

Module Sample.

Definition e1 : Entity := {| oid := 1; uid := "a" |}.
Definition e2 : Entity := {| oid := 2; uid := "b" |}.
Definition e3 : Entity := {| oid := 3; uid := "a" |}.

(** [EnergySystem()] *)
Definition no_kwargs : Kwargs Empty_set :=
  {| kw_regions := None; kw_entities := None; kw_simulation := None;
     kw_groupings := None; kw_results := None; kw_time_idx := None |}.

Definition no_Nodes : Empty_set -> Grouping := fun k => match k with end.

Definition es0 : EnergySystem :=
  {| regions := PList []; entities := []; simulation := PList [];
     _groups := Dict ∅; _groupings := [BY_UID];
     results := PNone; time_idx := PNone |}.

(** [EnergySystem(groupings=[g])] for a grouping instance [g] *)
Definition with_grouping (g : Grouping) : EnergySystem :=
  {| regions := PList []; entities := []; simulation := PList [];
     _groups := Dict ∅; _groupings := [BY_UID; g];
     results := PNone; time_idx := PNone |}.

End Sample.

(** Two containers that a read cannot tell apart: the read leaves the same
    container and has the same outcome.  (A container and itself after a
    successful read are the typical pair.) *)
Definition same_read (es1 es2 : EnergySystem) : Prop :=
  groups es1 = groups es2.

(** What folding the entities of [l] by uid makes of the dict [d]. *)
Definition fold_uid (d : Groups) (l : list Entity) : Groups :=
  foldl (fun d e => <[uid e := One e]> d) d l.

(** Only the default grouping is at work in the container. *)
Definition default_only (es : EnergySystem) : Prop :=
  _groupings es = [BY_UID]
  /\ forall e d gs, _groups es = Partial e d gs -> gs = [BY_UID].


(** What one name part gives: its first character in upper case and the
    two characters after it. *)
Definition abbrev (upper : string -> string) (part : string) : string :=
  upper (Reg.slice 0 1 part) +:+ Reg.slice 1 3 part.

Module SampleGroupings.

(** What a key function returns. *)
Inductive Keys : Type :=
| KNone
| KOne (k : string)
| KMany (ks : list string).

Definition KeyFn : Type := Entity -> result Keys.

(** [groups[k]] becomes the set of [e] and the entities [k] had. *)
Definition into_bucket (e : Entity) (d : Groups) (k : string) : Groups :=
  match d !! k with
  | Some (Many s) => <[k := Many ({[e]} ∪ s)]> d
  | _ => <[k := Many {[e]}]> d
  end.

(** Modelled from the spec: [oemof.groupings.Nodes] is not part of the
    sources.  The specification (4.2) gives the fold of one entity by one
    grouping function: if the function returns [None], skip; if it returns a
    single key, insert the entity into that key's bucket; if it returns
    several keys, insert it into the bucket of each, a bucket being created
    as a set on first use; a function that raises is not caught.  For a key
    that holds an entity of the default grouping the last write wins
    (section 9). *)
Definition Nodes (key : KeyFn) : Grouping :=
  fun e d =>
    match key e with
    | Raise x => (d, Some x)
    | Ok KNone => (d, None)
    | Ok (KOne k) => (into_bucket e d k, None)
    | Ok (KMany ks) => (foldl (into_bucket e) d ks, None)
    end.

(** [lambda e: 'odd' if ... else None], on object identities *)
Definition odd_ones : KeyFn :=
  fun e => Ok (if Nat.odd (oid e) then KOne "odd" else KNone).

(** [EnergySystem(groupings=[g, odd_ones])] for an instance [g] *)
Definition kwargs (g : Grouping) : Kwargs KeyFn :=
  {| kw_regions := None; kw_entities := None; kw_simulation := None;
     kw_groupings := Some [IsGrouping g; Other odd_ones];
     kw_results := None; kw_time_idx := None |}.

Definition es (g : Grouping) : EnergySystem :=
  {| regions := PList []; entities := []; simulation := PList [];
     _groups := Dict ∅; _groupings := [BY_UID; g; Nodes odd_ones];
     results := PNone; time_idx := PNone |}.

End SampleGroupings.

(** ** class CsvPrice ([rawdatalib/prices.py]) *)

Module Prices.

Section GetTimeseries.

(** [self.weather] is the dict that the csv loader returned, here its
    [items()] in the order of the dict.  A row [v] is whatever the loader
    made of a line and [v[parameter]] whatever indexing it then does: the
    value, or the exception raised. *)
Context {K : Type} `{Countable K}.
Variables Row Param Val : Type.
Variable getitem : Row -> Param -> result Val.

(** The loop [for k, v in self.weather.items(): ts[k] = v[parameter]] on
    the items that are left, [ts] being the dict so far. *)
Fixpoint timeseries_loop (items : list (K * Row)) (parameter : Param)
    (ts : gmap K Val) : result (gmap K Val) :=
  match items with
  | [] => Ok ts
  | (k, v) :: rest =>
      match getitem v parameter with
      | Ok x => timeseries_loop rest parameter (<[k := x]> ts)
      | Raise e => Raise e
      end
  end.

(** [get_timeseries(self, parameter)]: [ts = {}], the loop, [return ts]. *)
Definition get_timeseries (weather : list (K * Row)) (parameter : Param)
    : result (gmap K Val) :=
  timeseries_loop weather parameter ∅.

End GetTimeseries.

(** Rows that are dicts from column names to numbers, for examples:
    [v[parameter]] is the entry or a key error. *)
Definition dict_getitem (v : gmap string Z) (parameter : string) : result Z :=
  match v !! parameter with
  | Some x => Ok x
  | None => Raise (UserError 0)
  end.

Definition sample_weather : list (nat * gmap string Z) :=
  [(0, {[ "temp" := 3%Z; "wind" := 7%Z ]});
   (1, {[ "temp" := 4%Z; "wind" := 9%Z ]});
   (2, {[ "temp" := 5%Z ]})].

End Prices.

(** ** More vocabulary *)

(** The keyword arguments with [entities=l]. *)
Definition with_entities {KeyFn : Type} (l : option (list Entity))
    (kw : Kwargs KeyFn) : Kwargs KeyFn :=
  {| kw_regions := kw_regions kw; kw_entities := l;
     kw_simulation := kw_simulation kw; kw_groupings := kw_groupings kw;
     kw_results := kw_results kw; kw_time_idx := kw_time_idx kw |}.

(** The attributes of a container that neither [add] nor a read of
    [groups] is written to touch. *)
Definition others (es : EnergySystem)
    : PyVal * PyVal * list Grouping * PyVal * PyVal :=
  (regions es, simulation es, _groupings es, results es, time_idx es).

(** The keyword arguments [Simulation.__init__] reads. *)
Definition simulation_keys : list string :=
  ["solver"; "debug"; "verbose"; "objective_options"; "duals"; "timesteps";
   "relaxed"; "fast_build"; "solve_kwargs"].

(** A region that no entity refers to yet. *)
Definition fresh (r : nat) (st : Reg.RegionsOf) : Prop :=
  forall o, r ∉ st o.

(** A region with a name and no code. *)
Definition named (n : PyVal) : Reg.Region :=
  {| Reg.rid := 0; Reg.entities := []; Reg.name := n; Reg.geom := PNone;
     Reg._code := PNone |}.

(** ** What the properties ask for, said without the loops *)

(** Every grouping of the list has been called once on the entity, one
    after the other in the order of the list, each on the dict the one
    before it left, and none has raised: [d] is the dict before the first
    call and the last argument the dict after the last. *)
Inductive applied_in_order (e : Entity)
    : list Grouping -> Groups -> Groups -> Prop :=
| applied_nil (d : Groups) : applied_in_order e [] d d
| applied_cons (g : Grouping) (gs : list Grouping) (d d1 d2 : Groups) :
    g e d = (d1, None) ->
    applied_in_order e gs d1 d2 ->
    applied_in_order e (g :: gs) d d2.

(** The same for a list of entities: the groupings have been applied in
    order to the first entity, then to the second on the dict that this
    left, and so on. *)
Inductive grouped_in_order (gs : list Grouping)
    : list Entity -> Groups -> Groups -> Prop :=
| grouped_nil (d : Groups) : grouped_in_order gs [] d d
| grouped_cons (e : Entity) (l : list Entity) (d d1 d2 : Groups) :
    applied_in_order e gs d d1 ->
    grouped_in_order gs l d1 d2 ->
    grouped_in_order gs (e :: l) d d2.

(** The first [k] characters of a string, and the string without them. *)
Definition first_chars (k : nat) (s : string) : string :=
  String.string_of_list_ascii (take k (String.list_ascii_of_string s)).

Definition without_first (k : nat) (s : string) : string :=
  String.string_of_list_ascii (drop k (String.list_ascii_of_string s)).

Definition has_space (s : string) : Prop :=
  " "%char ∈ String.list_ascii_of_string s.

(** The name with a space in place of every underscore. *)
Definition spaced (n : string) : string :=
  String.string_of_list_ascii
    (map (fun c => if decide (c = "_"%char) then " "%char else c)
       (String.list_ascii_of_string n)).

(** The parts of a name: the name itself when it has neither space nor
    underscore, and otherwise what stands before the first of them and what
    stands after it. *)
Definition name_parts (n : string) (parts : list string) : Prop :=
  (~ has_space (spaced n) /\ parts = [spaced n])
  \/ (exists before after,
        spaced n = before +:+ String " " after
        /\ ~ has_space before /\ parts = [before; after]).

(** What a part gives to the code: its first character in upper case and
    the next two characters. *)
Definition part_code (upper : string -> string) (part : string) : string :=
  upper (first_chars 1 part) +:+ first_chars 2 (without_first 1 part).

(** ** The read loop *)

Lemma groups_while_force (fuel : nat) (f : GroupsField) :
  groups_while (S fuel) f = Some (force f).
Proof.
  destruct f as [d | e d gs]; simpl; [done |].
  unfold call_partial. destruct (_regroup e d gs) as [d' [x |]]; [done |].
  by destruct fuel.
Qed.

Lemma force_callable (f f' : GroupsField) (d : Groups) :
  force f = (f', Ok d) -> f' = Dict d.
Proof.
  destruct f as [d0 | e d0 gs]; simpl.
  - by intros [= <- <-].
  - destruct (_regroup e d0 gs) as [d' [x |]]; [done |]. by intros [= <- <-].
Qed.

Lemma set_groups_id (es : EnergySystem) : set_groups (_groups es) es = es.
Proof. by destruct es. Qed.

Lemma groups_Dict (es : EnergySystem) (d : Groups) :
  _groups es = Dict d -> groups es = (es, Ok d).
Proof.
  intros H. unfold groups. rewrite H. simpl. by rewrite <- H, set_groups_id.
Qed.

Lemma groups_set_entities (l : list Entity) (es : EnergySystem) :
  groups (set_entities l es)
  = ((set_entities l (groups es).1), (groups es).2).
Proof.
  unfold groups. simpl. by destruct (force (_groups es)).
Qed.

(** A successful read leaves the dict in the field, so a second read
    returns it as it is. *)
Lemma groups_Ok_again (es es' : EnergySystem) (d : Groups) :
  groups es = (es', Ok d) -> groups es' = (es', Ok d).
Proof.
  unfold groups. destruct (force (_groups es)) as [f r] eqn:Hf.
  intros [= <- ->]. apply force_callable in Hf as ->. simpl.
  by destruct es.
Qed.

(** [add] in terms of the read it performs. *)
Lemma add_unfold (e : Entity) (es : EnergySystem) :
  add e es
  = match force (_groups es) with
    | (f, Ok d) =>
        (set_groups (Partial e d (_groupings es))
           (set_entities (entities es ++ [e]) es), Ok tt)
    | (f, Raise x) =>
        (set_groups f (set_entities (entities es ++ [e]) es), Raise x)
    end.
Proof.
  unfold add, groups. simpl. by destruct (force (_groups es)) as [f [d | x]].
Qed.

(** ** The deferred value as a state machine *)

(** C2, as the code has it: [add] reads the property [groups] to build the
    partial.  From a dict it stores a partial over that dict and calls no
    grouping.  From a partial it first runs the fold of the one pending
    entity, at add time: if that returns, the new partial wraps the folded
    dict and holds the fold of the new entity alone; if it raises, [add]
    raises after the append and the old partial stays.  So one fold at most
    is ever pending.  A read turns a partial into the dict and does nothing
    to a dict. *)
Theorem add_forces_then_defers_one (es : EnergySystem) (e : Entity) :
  let appended := set_entities (entities es ++ [e]) es in
  (forall d, _groups es = Dict d ->
     add e es = (set_groups (Partial e d (_groupings es)) appended, Ok tt))
  /\ (forall e0 d0 gs0 d', _groups es = Partial e0 d0 gs0 ->
        _regroup e0 d0 gs0 = (d', None) ->
        add e es
        = (set_groups (Partial e d' (_groupings es)) appended, Ok tt))
  /\ (forall e0 d0 gs0 d' x, _groups es = Partial e0 d0 gs0 ->
        _regroup e0 d0 gs0 = (d', Some x) ->
        add e es = (set_groups (Partial e0 d' gs0) appended, Raise x))
  /\ (forall es', add e es = (es', Ok tt) ->
        callable (_groups es') = true /\ pending (_groups es') = [e])
  /\ (forall es' d, groups es = (es', Ok d) ->
        callable (_groups es') = false /\ _groups es' = Dict d)
  /\ (forall d, _groups es = Dict d -> groups es = (es, Ok d))
  /\ (forall e0 d0 gs0 d', _groups es = Partial e0 d0 gs0 ->
        _regroup e0 d0 gs0 = (d', None) ->
        groups es = (set_groups (Dict d') es, Ok d'))
  /\ (forall e0 d0 gs0 d' x, _groups es = Partial e0 d0 gs0 ->
        _regroup e0 d0 gs0 = (d', Some x) ->
        groups es = (set_groups (Partial e0 d' gs0) es, Raise x)).
Proof.
  intros appended. repeat split.
  - intros d H. rewrite add_unfold, H. done.
  - intros e0 d0 gs0 d' H Hr. rewrite add_unfold, H. simpl. by rewrite Hr.
  - intros e0 d0 gs0 d' x H Hr. rewrite add_unfold, H. simpl. by rewrite Hr.
  - rewrite add_unfold in H.
    destruct (force (_groups es)) as [f [d | x]]; [| done].
    by injection H as <-.
  - rewrite add_unfold in H.
    destruct (force (_groups es)) as [f [d | x]]; [| done].
    by injection H as <-.
  - unfold groups in H. destruct (force (_groups es)) as [f r] eqn:Hf.
    injection H as <- ->. by apply force_callable in Hf as ->.
  - unfold groups in H. destruct (force (_groups es)) as [f r] eqn:Hf.
    injection H as <- ->. by apply force_callable in Hf as ->.
  - intros d H. by apply groups_Dict.
  - intros e0 d0 gs0 d' H Hr. unfold groups. rewrite H. simpl. by rewrite Hr.
  - intros e0 d0 gs0 d' x H Hr. unfold groups. rewrite H. simpl.
    by rewrite Hr.
Qed.

Lemma add_forces_then_defers_one_witness :
  add Sample.e2 (add Sample.e1 Sample.es0).1
  = (set_groups (Partial Sample.e2 {[ "a" := One Sample.e1 ]} [BY_UID])
       (set_entities [Sample.e1; Sample.e2] (add Sample.e1 Sample.es0).1),
     Ok tt).
Proof.
  apply (proj1 (proj2 (add_forces_then_defers_one
                         (add Sample.e1 Sample.es0).1 Sample.e2))
           Sample.e1 ∅ [BY_UID] {[ "a" := One Sample.e1 ]});
    reflexivity.
Defined.

(** C2 as stated fails: after two adds and no read by the caller, the field
    does not hold the folds of both entities over the old dict; the first
    entity has been grouped already, during the second [add]. *)
Lemma add_chain_counterexample :
  let es1 := (add Sample.e1 Sample.es0).1 in
  let es2 := (add Sample.e2 es1).1 in
  stored (_groups es1) !! "a" = None
  /\ pending (_groups es2) <> [Sample.e1; Sample.e2]
  /\ pending (_groups es2) = [Sample.e2]
  /\ stored (_groups es2) !! "a" = Some (One Sample.e1).
Proof. repeat split; done. Qed.

(** ** Failure of a grouping *)

(** [add] raises exactly when the read it performs does, that is when the
    fold that was pending before raises. *)
Lemma add_raises_iff (e : Entity) (es : EnergySystem) (x : Exn) :
  (add e es).2 = Raise x <-> (groups es).2 = Raise x.
Proof.
  rewrite add_unfold. unfold groups.
  destruct (force (_groups es)) as [f [d | y]]; simpl; split; intros H;
    by inversion H.
Qed.

(** C3, as the code has it: when the groupings raise [x] on [e] (over the
    dict that a read before the call returns), [add e] calls none of them on
    [e] and returns.  The exception surfaces at the next forcing, which is
    the next read of [groups] or the next [add], whichever comes first;
    nothing catches it, and the fold of [e] stays pending.  An [add] raises
    only what was pending before it. *)
Theorem grouping_failure_surfaces_at_next_force
    (es : EnergySystem) (e : Entity) (f : GroupsField) (d d' : Groups)
    (x : Exn) :
  force (_groups es) = (f, Ok d) ->
  _regroup e d (_groupings es) = (d', Some x) ->
  exists es1,
    add e es = (es1, Ok tt)
    /\ _groups es1 = Partial e d (_groupings es)
    /\ groups es1 = (set_groups (Partial e d' (_groupings es)) es1, Raise x)
    /\ (forall e', (add e' es1).2 = Raise x)
    /\ (forall e' y, (add e' es).2 = Raise y <-> (groups es).2 = Raise y).
Proof.
  intros Hf Hr. eexists. split; [| split; [| split; [| split]]].
  - rewrite add_unfold, Hf. reflexivity.
  - done.
  - unfold groups. simpl. by rewrite Hr.
  - intros e'. rewrite add_unfold. simpl. by rewrite Hr.
  - intros e' y. apply add_raises_iff.
Qed.

Lemma grouping_failure_surfaces_at_next_force_witness :
  exists es1,
    add Sample.e1 (Sample.with_grouping (raises_on Sample.e1 (UserError 7)))
    = (es1, Ok tt)
    /\ (groups es1).2 = Raise (UserError 7).
Proof.
  destruct (grouping_failure_surfaces_at_next_force
              (Sample.with_grouping (raises_on Sample.e1 (UserError 7)))
              Sample.e1 (Dict ∅) ∅ {[ "a" := One Sample.e1 ]} (UserError 7)
              eq_refl eq_refl) as (es1 & Hadd & _ & Hread & _).
  exists es1. split; [exact Hadd |]. by rewrite Hread.
Defined.

(** C3 as stated fails: the exception of a grouping that raises on the
    first entity comes out of the [add] of the second one, with no read of
    [groups] by the caller; [add] forces what was pending. *)
Lemma add_raises_counterexample :
  let es := Sample.with_grouping (raises_on Sample.e1 (UserError 7)) in
  (add Sample.e1 es).2 = Ok tt
  /\ (add Sample.e2 (add Sample.e1 es).1).2 = Raise (UserError 7).
Proof. split; reflexivity. Qed.

(** ** Reading in between changes nothing *)

Lemma same_read_after_read (es es' : EnergySystem) (d : Groups) :
  groups es = (es', Ok d) -> same_read es' es.
Proof.
  intros H. unfold same_read. rewrite H. by apply groups_Ok_again in H.
Qed.

Lemma add_same_read (e : Entity) (es1 es2 : EnergySystem) :
  same_read es1 es2 -> add e es1 = add e es2.
Proof.
  unfold same_read, add. rewrite !groups_set_entities. intros H.
  assert (entities es1 = entities es2) as Hent.
  { assert (entities (groups es1).1 = entities (groups es2).1) as H'
      by by rewrite H.
    unfold groups in H'.
    by destruct (force (_groups es1)), (force (_groups es2)). }
  assert (_groupings es1 = _groupings es2) as Hgs.
  { assert (_groupings (groups es1).1 = _groupings (groups es2).1) as H'
      by by rewrite H.
    unfold groups in H'.
    by destruct (force (_groups es1)), (force (_groups es2)). }
  rewrite H, Hent. destruct (groups es2) as [es2' [d | x]]; simpl; [| done].
  done.
Qed.

(** Once the pending fold raises, so does everything that forces it. *)
Lemma run_adds_raises (l : list Entity) (es : EnergySystem) (x : Exn) :
  (groups es).2 = Raise x -> (add_all_then_read l es).2 = Raise x.
Proof.
  intros H. unfold add_all_then_read, mbind, M_bind.
  destruct l as [| e l]; simpl.
  - unfold mret, M_ret. done.
  - unfold mbind, M_bind, step.
    apply add_raises_iff with (e := e) in H.
    destruct (add e es) as [es' [[] | y]]; simpl in *; [done |].
    by inversion H.
Qed.

Lemma run_same_read (ops : list Op) (es1 es2 : EnergySystem) :
  same_read es1 es2 ->
  ((_ ← run ops; groups) es1).2 = (add_all_then_read (adds_of ops) es2).2
  /\ (forall d, ((_ ← run ops; groups) es1).2 = Ok d ->
        ((_ ← run ops; groups) es1).1
        = (add_all_then_read (adds_of ops) es2).1).
Proof.
  revert es1 es2. induction ops as [| op ops IH]; intros es1 es2 Hsame.
  - unfold add_all_then_read, mbind, M_bind, mret, M_ret; simpl.
    unfold same_read in Hsame. by rewrite Hsame.
  - destruct op as [e |].
    + pose proof (add_same_read e _ _ Hsame) as Hadd.
      unfold add_all_then_read in *. simpl.
      unfold mbind, M_bind in *. simpl. unfold mbind, M_bind in *.
      rewrite Hadd. destruct (add e es2) as [es' [[] | x]]; simpl; [| done].
      by apply IH.
    + unfold add_all_then_read in *. simpl.
      unfold mbind, M_bind in *. simpl. unfold mbind, M_bind in *.
      destruct (groups es1) as [es1' [d | x]] eqn:Hg; simpl.
      * unfold mret, M_ret. simpl.
        apply IH. apply same_read_after_read in Hg.
        unfold same_read in *. congruence.
      * pose proof (run_adds_raises (adds_of ops) es2 x) as Hr.
        unfold add_all_then_read, mbind, M_bind in Hr.
        unfold same_read in Hsame. rewrite <- Hsame, Hg in Hr.
        rewrite Hr; [| done]. split; [done |]. intros d. done.
Qed.

Lemma adds_of_add_read (l : list Entity) :
  adds_of (flat_map (fun e => [OAdd e; ORead]) l) = l.
Proof. induction l as [| e l IH]; simpl; by rewrite ?IH. Qed.

(** C4: on any container, adding the entities of [l] and reading [groups]
    once has the outcome of reading after every single addition: the same
    mapping, or the same exception.  More generally the outcome of the last
    read of any run of adds and reads is that of the run without its reads;
    when it is a mapping, the container is the same as well. *)
Theorem reads_in_between_change_nothing (es : EnergySystem) :
  (forall l, (read_after_each_add l es).2 = (add_all_then_read l es).2)
  /\ (forall ops,
        ((_ ← run ops; groups) es).2 = (add_all_then_read (adds_of ops) es).2)
  /\ (forall ops d,
        ((_ ← run ops; groups) es).2 = Ok d ->
        (_ ← run ops; groups) es = add_all_then_read (adds_of ops) es).
Proof.
  split; [| split].
  - intros l. unfold read_after_each_add.
    rewrite <- (adds_of_add_read l) at 2.
    by apply run_same_read.
  - intros ops. by apply run_same_read.
  - intros ops d Hd.
    destruct (run_same_read ops es es eq_refl) as [H2 H1].
    specialize (H1 d Hd).
    destruct ((_ ← run ops; groups) es), (add_all_then_read (adds_of ops) es).
    simpl in *. by subst.
Qed.

(** ** The default grouping *)

Lemma fold_uid_lookup (l : list Entity) (d : Groups) (u : string) :
  fold_uid d l !! u
  = match last_by_uid u l with
    | Some e => Some (One e)
    | None => d !! u
    end.
Proof.
  revert d. induction l as [| e l IH]; intros d; [done |].
  unfold fold_uid in *. simpl. rewrite IH. unfold last_by_uid.
  rewrite filter_cons. destruct (decide (uid e = u)) as [Heq | Hne].
  - rewrite last_cons. destruct (last _); [done |].
    by rewrite <- Heq, lookup_insert_eq.
  - destruct (last _); [done |]. by rewrite lookup_insert_ne.
Qed.

Lemma last_by_uid_elem (l : list Entity) (e : Entity) :
  e ∈ l ->
  exists e' l1 l2,
    last_by_uid (uid e) l = Some e' /\ uid e' = uid e
    /\ l = l1 ++ e' :: l2 /\ Forall (fun e2 => uid e2 <> uid e) l2.
Proof.
  intros Hin. unfold last_by_uid.
  destruct (last (filter (fun e0 => uid e0 = uid e) l)) as [e' |] eqn:Hl.
  - destruct (last_filter_Some _ _ _ Hl) as (l1 & l2 & -> & Hall).
    apply last_Some_elem_of, list_elem_of_filter in Hl as [Hu _].
    by exists e', l1, l2.
  - apply last_None in Hl.
    by destruct (filter_nil_not_elem_of _ _ e Hl eq_refl).
Qed.

Lemma default_only_read (es : EnergySystem) :
  default_only es -> exists d, groups es = (set_groups (Dict d) es, Ok d).
Proof.
  intros [_ Hp]. unfold groups.
  destruct (_groups es) as [d | e d gs] eqn:Hg; simpl; [by eexists |].
  rewrite (Hp e d gs eq_refl). simpl. by eexists.
Qed.

Lemma default_only_add (e : Entity) (es : EnergySystem) (d : Groups) :
  default_only es -> (groups es).2 = Ok d ->
  exists es', add e es = (es', Ok tt) /\ default_only es'
              /\ (groups es').2 = Ok (<[uid e := One e]> d).
Proof.
  intros Hdef Hd. destruct (default_only_read es Hdef) as [d' Hr].
  rewrite Hr in Hd. simpl in Hd. injection Hd as ->.
  unfold groups in Hr. rewrite add_unfold.
  destruct (force (_groups es)) as [f r]. injection Hr as Hf ->.
  eexists. split; [done |]. destruct Hdef as [Hgs _]. split.
  - split; simpl; [done |]. intros e0 d0 gs [= _ _ <-]. done.
  - unfold groups. simpl. by rewrite Hgs.
Qed.

Lemma default_only_add_all (l : list Entity) (es : EnergySystem)
    (d : Groups) :
  default_only es -> (groups es).2 = Ok d ->
  exists es', add_all_then_read l es = (es', Ok (fold_uid d l)).
Proof.
  revert es d. induction l as [| e l IH]; intros es d Hdef Hd.
  - unfold add_all_then_read, mbind, M_bind, mret, M_ret. simpl.
    destruct (groups es) as [es' r]. simpl in Hd. subst. by eexists.
  - destruct (default_only_add e es d Hdef Hd) as (es' & Hadd & Hdef' & Hd').
    destruct (IH es' _ Hdef' Hd') as [es'' Hall]. exists es''.
    unfold add_all_then_read in *. simpl. unfold mbind, M_bind in *. simpl.
    unfold mbind, M_bind. rewrite Hadd. done.
Qed.

Section DefaultInit.

Context {KeyFn : Type} (Nodes : KeyFn -> Grouping).

Lemma for_entities_BY_UID (l : list Entity) (d : Groups) :
  for_entities l [BY_UID] d = (fold_uid d l, None).
Proof. revert d. induction l as [| e l IH]; intros d; simpl; [done |]. apply IH. Qed.

Lemma init_default (kw : Kwargs KeyFn) :
  default [] (kw_groupings kw) = [] ->
  exists es0, init Nodes kw = Ok es0 /\ default_only es0
              /\ _groups es0 = Dict (fold_uid ∅ (default [] (kw_entities kw))).
Proof.
  intros Hg. unfold init, make_groupings. rewrite Hg. simpl.
  rewrite for_entities_BY_UID. eexists. split; [done |].
  split; [| done]. split; [done |]. simpl. done.
Qed.

(** C1: in a container built without user groupings, after the entities of
    [l] have been added, a read of [groups] returns a mapping that holds,
    under the uid of every added entity [e], the entity of that uid added
    last; it is [e] itself when no other added entity has its uid. *)
Theorem groups_by_uid_holds_latest (kw : Kwargs KeyFn) (l : list Entity)
    (e : Entity) :
  default [] (kw_groupings kw) = [] ->
  e ∈ l ->
  exists es0 es' d e' l1 l2,
    init Nodes kw = Ok es0
    /\ add_all_then_read l es0 = (es', Ok d)
    /\ l = l1 ++ e' :: l2 /\ uid e' = uid e
    /\ Forall (fun e2 => uid e2 <> uid e) l2
    /\ d !! uid e = Some (One e')
    /\ ((forall e2, e2 ∈ l -> uid e2 = uid e -> e2 = e) -> e' = e).
Proof.
  intros Hg Hin.
  destruct (init_default kw Hg) as (es0 & Hinit & Hdef & Hd0).
  destruct (default_only_add_all l es0 _ Hdef
              (f_equal snd (groups_Dict es0 _ Hd0))) as [es' Hall].
  destruct (last_by_uid_elem l e Hin) as (e' & l1 & l2 & Hlast & Hu & Hl & Hl2).
  exists es0, es', (fold_uid (fold_uid ∅ (default [] (kw_entities kw))) l),
    e', l1, l2.
  repeat split; try done.
  - by rewrite fold_uid_lookup, Hlast.
  - intros Huniq. apply Huniq; [| done]. rewrite Hl.
    apply elem_of_app. right. by left.
Qed.

End DefaultInit.

Lemma groups_by_uid_holds_latest_witness :
  exists es0 es' d e' l1 l2,
    init Sample.no_Nodes Sample.no_kwargs = Ok es0
    /\ add_all_then_read [Sample.e1; Sample.e2; Sample.e3] es0 = (es', Ok d)
    /\ [Sample.e1; Sample.e2; Sample.e3] = l1 ++ e' :: l2
    /\ uid e' = uid Sample.e3
    /\ Forall (fun e2 => uid e2 <> uid Sample.e3) l2
    /\ d !! uid Sample.e3 = Some (One e')
    /\ ((forall e2, e2 ∈ [Sample.e1; Sample.e2; Sample.e3] ->
         uid e2 = uid Sample.e3 -> e2 = Sample.e3) -> e' = Sample.e3).
Proof.
  apply (groups_by_uid_holds_latest Sample.no_Nodes Sample.no_kwargs
           [Sample.e1; Sample.e2; Sample.e3] Sample.e3).
  - reflexivity.
  - repeat constructor.
Defined.

(** The same on values: the third entity shares the uid of the first and
    takes its place. *)
Example groups_by_uid_sample :
  exists es' d,
    add_all_then_read [Sample.e1; Sample.e2; Sample.e3] Sample.es0
    = (es', Ok d)
    /\ d !! "a" = Some (One Sample.e3) /\ d !! "b" = Some (One Sample.e2)
    /\ init Sample.no_Nodes Sample.no_kwargs = Ok Sample.es0.
Proof. do 2 eexists. repeat split. Qed.

(** ** The list of groupings *)

Lemma for_groupings_app (gs1 gs2 : list Grouping) (e : Entity) (d : Groups) :
  for_groupings (gs1 ++ gs2) e d
  = match for_groupings gs1 e d with
    | (d', None) => for_groupings gs2 e d'
    | (d', Some x) => (d', Some x)
    end.
Proof.
  revert d. induction gs1 as [| g gs1 IH]; intros d; simpl; [done |].
  destruct (g e d) as [d' [x |]]; [done |]. apply IH.
Qed.

Lemma groups_groupings (es : EnergySystem) :
  _groupings (groups es).1 = _groupings es.
Proof. unfold groups. by destruct (force (_groups es)). Qed.

Lemma add_groupings (e : Entity) (es : EnergySystem) :
  _groupings (add e es).1 = _groupings es.
Proof. rewrite add_unfold. by destruct (force (_groups es)) as [f [d | x]]. Qed.

Lemma run_groupings (ops : list Op) (es : EnergySystem) :
  _groupings (run ops es).1 = _groupings es.
Proof.
  revert es. induction ops as [| op ops IH]; intros es; [done |].
  simpl. unfold mbind, M_bind.
  destruct (step op es) as [es' [[] | x]] eqn:Hs; simpl.
  - rewrite IH. destruct op as [e |]; simpl in Hs.
    + by rewrite <- (add_groupings e es), Hs.
    + unfold mbind, M_bind in Hs. rewrite <- (groups_groupings es).
      destruct (groups es) as [es1 [d | y]]; by inversion Hs.
  - destruct op as [e |]; simpl in Hs.
    + by rewrite <- (add_groupings e es), Hs.
    + unfold mbind, M_bind in Hs. rewrite <- (groups_groupings es).
      destruct (groups es) as [es1 [d | y]]; by inversion Hs.
Qed.

Lemma for_groupings_applied (gs : list Grouping) (e : Entity)
    (d d' : Groups) :
  for_groupings gs e d = (d', None) -> applied_in_order e gs d d'.
Proof.
  revert d. induction gs as [| g gs IH]; intros d; simpl.
  - intros [= <-]. constructor.
  - destruct (g e d) as [d1 [x |]] eqn:Hg; [done |].
    intros Hrest. econstructor; [exact Hg | by apply IH].
Qed.

Lemma for_groupings_raised (gs : list Grouping) (e : Entity)
    (d d' : Groups) (x : Exn) :
  for_groupings gs e d = (d', Some x) ->
  exists gs1 g gs2 d1,
    gs = gs1 ++ g :: gs2 /\ applied_in_order e gs1 d d1
    /\ g e d1 = (d', Some x).
Proof.
  revert d. induction gs as [| g gs IH]; intros d; simpl; [done |].
  destruct (g e d) as [d1 [y |]] eqn:Hg.
  - intros [= <- <-]. exists [], g, gs, d. repeat split; [constructor | done].
  - intros (gs1 & g' & gs2 & d2 & -> & Happ & Hfail)%IH.
    exists (g :: gs1), g', gs2, d2. repeat split; [| done].
    by econstructor.
Qed.

Lemma for_entities_grouped (l : list Entity) (gs : list Grouping)
    (d d' : Groups) :
  for_entities l gs d = (d', None) -> grouped_in_order gs l d d'.
Proof.
  revert d. induction l as [| e l IH]; intros d; simpl.
  - intros [= <-]. constructor.
  - destruct (for_groupings gs e d) as [d1 [x |]] eqn:He; [done |].
    intros Hrest. econstructor; [by apply for_groupings_applied | by apply IH].
Qed.

(** After a run that ended well, what [add] stores and what the read
    after it returns. *)
Lemma add_then_read_applies (es : EnergySystem) (e : Entity)
    (d0 d' : Groups) (es1 es2 : EnergySystem) :
  (groups es).2 = Ok d0 ->
  add e es = (es1, Ok tt) ->
  groups es1 = (es2, Ok d') ->
  _groups es1 = Partial e d0 (_groupings es)
  /\ _groups es2 = Dict d'
  /\ applied_in_order e (_groupings es) d0 d'.
Proof.
  intros Hd Hadd Hread. rewrite add_unfold in Hadd. unfold groups in Hd.
  destruct (force (_groups es)) as [f [d | x]]; [| done].
  simpl in Hd. injection Hd as ->. injection Hadd as <-.
  unfold groups in Hread. simpl in Hread.
  destruct (_regroup e d0 (_groupings es)) as [d1 [x |]] eqn:Hr; [done |].
  injection Hread as <- <-. repeat split. by apply for_groupings_applied.
Qed.

Section Configure.

Context {KeyFn : Type} (Nodes : KeyFn -> Grouping).

(** C6: the constructor makes the list of groupings out of the default
    grouping, first, and the elements of [groupings] in their order, each
    taken as it is when it is a grouping instance and wrapped by [Nodes]
    otherwise.  The groupings of this list are applied in its order, each
    once and on the dict its predecessor left, to every entity: to the
    entities given at construction, in their order, before the constructor
    returns, and to every entity added later, whatever was added and read
    in between, since no call changes the list.  [_regroup] on the list
    either applies all of them in order or stops at the first that
    raises. *)
Theorem groupings_configured (kw : Kwargs KeyFn) (es : EnergySystem) :
  init Nodes kw = Ok es ->
  let user := default [] (kw_groupings kw) in
  _groupings es = BY_UID :: map (wrap Nodes) user
  /\ _groupings es !! 0 = Some BY_UID
  /\ length (_groupings es) = S (length user)
  /\ (forall i g, user !! i = Some (IsGrouping g) ->
        _groupings es !! S i = Some g)
  /\ (forall i k, user !! i = Some (Other k) ->
        _groupings es !! S i = Some (Nodes k))
  /\ (forall e d,
        _regroup e d (_groupings es)
        = match BY_UID e d with
          | (d', None) => for_groupings (map (wrap Nodes) user) e d'
          | (d', Some x) => (d', Some x)
          end)
  /\ (forall e d gs1 gs2, _groupings es = gs1 ++ gs2 ->
        _regroup e d (_groupings es)
        = match for_groupings gs1 e d with
          | (d', None) => for_groupings gs2 e d'
          | (d', Some x) => (d', Some x)
          end)
  /\ (exists d, _groups es = Dict d
        /\ for_entities (default [] (kw_entities kw)) (_groupings es) ∅
           = (d, None))
  /\ (forall ops, _groupings (run ops es).1 = _groupings es)
  /\ (forall e es', add e es = (es', Ok tt) ->
        exists d, _groups es' = Partial e d (_groupings es))
  /\ (exists d, _groups es = Dict d
        /\ grouped_in_order (_groupings es) (default [] (kw_entities kw)) ∅ d)
  /\ (forall e d d', _regroup e d (_groupings es) = (d', None) ->
        applied_in_order e (_groupings es) d d')
  /\ (forall e d d' x, _regroup e d (_groupings es) = (d', Some x) ->
        exists gs1 g gs2 d1,
          _groupings es = gs1 ++ g :: gs2
          /\ applied_in_order e gs1 d d1 /\ g e d1 = (d', Some x))
  /\ (forall ops es' e d0 es1 es2 d',
        run ops es = (es', Ok tt) -> (groups es').2 = Ok d0 ->
        add e es' = (es1, Ok tt) -> groups es1 = (es2, Ok d') ->
        applied_in_order e (_groupings es) d0 d').
Proof.
  intros Hinit user.
  assert (forall ops es' e d0 es1 es2 d',
            run ops es = (es', Ok tt) -> (groups es').2 = Ok d0 ->
            add e es' = (es1, Ok tt) -> groups es1 = (es2, Ok d') ->
            applied_in_order e (_groupings es) d0 d') as Hlater.
  { intros ops es' e d0 es1 es2 d' Hrun Hd Hadd Hread.
    rewrite <- (run_groupings ops es), Hrun. simpl.
    by destruct (add_then_read_applies es' e d0 d' es1 es2 Hd Hadd Hread)
      as (_ & _ & Happ). }
  assert (forall e d d', _regroup e d (_groupings es) = (d', None) ->
            applied_in_order e (_groupings es) d d') as Hok.
  { intros e d d' Hr. exact (for_groupings_applied _ _ _ _ Hr). }
  assert (forall e d d' x, _regroup e d (_groupings es) = (d', Some x) ->
            exists gs1 g gs2 d1,
              _groupings es = gs1 ++ g :: gs2
              /\ applied_in_order e gs1 d d1 /\ g e d1 = (d', Some x))
    as Hraise.
  { intros e d d' x Hr. exact (for_groupings_raised _ _ _ _ _ Hr). }
  assert (exists d, _groups es = Dict d
            /\ grouped_in_order (_groupings es)
                 (default [] (kw_entities kw)) ∅ d) as Hgrouped.
  { unfold init in Hinit.
    destruct (for_entities _ _ _) as [d0 [x |]] eqn:Hfor; [done |].
    injection Hinit as <-. exists d0. split; [done |].
    by apply for_entities_grouped in Hfor. }
  split_and!; try assumption.
  all: clear Hlater Hok Hraise Hgrouped; unfold init in Hinit;
    destruct (for_entities _ _ _) as [d0 [x |]] eqn:Hfor;
    [discriminate Hinit |]; injection Hinit as <-; simpl; fold user.
  - done.
  - done.
  - by rewrite length_map.
  - intros i g Hi. by rewrite list_lookup_fmap, Hi.
  - intros i k Hi. by rewrite list_lookup_fmap, Hi.
  - done.
  - intros e d gs1 gs2 Hgs. unfold _regroup.
    rewrite <- for_groupings_app, <- Hgs. reflexivity.
  - by exists d0.
  - intros ops. by rewrite run_groupings.
  - intros e es'. rewrite add_unfold. simpl. intros [= <-]. by eexists.
Qed.

End Configure.

Lemma groupings_configured_witness :
  let g := raises_on Sample.e2 (UserError 7) in
  let kw := with_entities (Some [Sample.e1; Sample.e3])
              (SampleGroupings.kwargs g) in
  exists es d,
    init SampleGroupings.Nodes kw = Ok es
    /\ _groupings es
       = [BY_UID; g; SampleGroupings.Nodes SampleGroupings.odd_ones]
    /\ _groups es = Dict d
    /\ grouped_in_order (_groupings es) [Sample.e1; Sample.e3] ∅ d
    /\ d !! "a" = Some (One Sample.e3)
    /\ d !! "odd" = Some (Many {[Sample.e1; Sample.e3]}).
Proof.
  intros g kw.
  destruct (init SampleGroupings.Nodes kw) as [es | x] eqn:Hinit;
    [| by vm_compute in Hinit].
  destruct (groupings_configured SampleGroupings.Nodes kw es Hinit)
    as (Hgs & _ & _ & _ & _ & _ & _ & _ & _ & _ & (d & Hd & Hgrouped) & _).
  exists es, d. split; [done |]. split; [exact Hgs |].
  split; [exact Hd |]. split; [exact Hgrouped |].
  unfold init in Hinit. simpl in Hinit. injection Hinit as <-.
  simpl in Hd. injection Hd as <-. split; vm_compute; reflexivity.
Defined.

Example groupings_sample :
  let g := raises_on Sample.e2 (UserError 7) in
  exists es' d,
    add_all_then_read [Sample.e1; Sample.e3] (SampleGroupings.es g)
    = (es', Ok d)
    /\ d !! "a" = Some (One Sample.e3)
    /\ d !! "odd" = Some (Many {[Sample.e1; Sample.e3]}).
Proof.
  do 2 eexists. split; [reflexivity |]. split; [reflexivity |].
  vm_compute. reflexivity.
Qed.

(** ** [nodes] *)

(** C7: [nodes] reads the same list as [entities]; assigning to it puts the
    given list in place of the entity list and touches nothing else: the
    field [_groups] and the list of groupings are as before, so a read of
    [groups] has the outcome it would have had, and no grouping is called
    on the assigned entities.  An entity added afterwards is appended to
    the assigned list. *)
Theorem nodes_aliases_entities (es : EnergySystem) (value : list Entity) :
  nodes es = (es, Ok (entities es))
  /\ (set_nodes value es).2 = Ok tt
  /\ entities (set_nodes value es).1 = value
  /\ (nodes (set_nodes value es).1).2 = Ok value
  /\ _groups (set_nodes value es).1 = _groups es
  /\ _groupings (set_nodes value es).1 = _groupings es
  /\ (groups (set_nodes value es).1).2 = (groups es).2
  /\ stored (_groups (groups (set_nodes value es).1).1)
     = stored (_groups (groups es).1)
  /\ (forall e, (nodes (add e (set_nodes value es).1).1).2
                = Ok (value ++ [e])).
Proof.
  repeat split.
  - unfold set_nodes. simpl. rewrite groups_set_entities. done.
  - unfold set_nodes. simpl. rewrite groups_set_entities. done.
  - intros e. unfold set_nodes, nodes. simpl. rewrite add_unfold. simpl.
    by destruct (force (_groups es)) as [f [d | x]].
Qed.

(** ** The life of the group mapping *)










Section Lifecycle.

Context {KeyFn : Type} (Nodes : KeyFn -> Grouping).


End Lifecycle.



(** ** Regions *)

Lemma foldl_back_reference (r : nat) (ents : list Entity)
    (st : Reg.RegionsOf) (o : nat) :
  foldl (Reg.back_reference r) st ents o
  = if decide (o ∈ map oid ents /\ r ∉ st o) then st o ++ [r] else st o.
Proof.
  revert st. induction ents as [| e ents IH]; intros st; simpl.
  - done.
  - rewrite IH. unfold Reg.back_reference, Reg.regions_append.
    destruct (decide (r ∈ st (oid e))) as [Hin | Hnin].
    + destruct (decide (o ∈ map oid ents /\ r ∉ st o)) as [[Ho Hr] | Ha],
        (decide (o ∈ oid e :: map oid ents /\ r ∉ st o)) as [[Ho' Hr'] | Hb];
        try done; exfalso.
      * apply Hb. split; [by right | done].
      * apply elem_of_cons in Ho' as [-> | Ho']; [done |]. by apply Ha.
    + destruct (decide (o = oid e)) as [-> | Hne].
      * rewrite decide_False, decide_True; [done | | ].
        -- split; [by left | done].
        -- intros [_ Hr]. apply Hr. apply elem_of_app. right. by left.
      * destruct (decide (o ∈ map oid ents /\ r ∉ st o)) as [[Ho Hr] | Ha],
          (decide (o ∈ oid e :: map oid ents /\ r ∉ st o)) as [[Ho' Hr'] | Hb];
          try done; exfalso.
        -- apply Hb. split; [by right | done].
        -- apply elem_of_cons in Ho' as [-> | Ho']; [done |]. by apply Ha.
Qed.

(** C9: [add_entities] appends the given entities, in their order, to the
    entity list of the region and changes nothing else of the region.
    Afterwards the region is in the [regions] list of each of them.  It was
    appended to that list exactly when it was not in it before; a list that
    had the region, and the lists of other entities, are as before. *)
Theorem add_entities_back_references (self : Reg.Region)
    (ents : list Entity) (st : Reg.RegionsOf) :
  let self' := (Reg.add_entities self ents st).1 in
  let st' := (Reg.add_entities self ents st).2 in
  Reg.entities self' = Reg.entities self ++ ents
  /\ (Reg.rid self' = Reg.rid self /\ Reg.name self' = Reg.name self
      /\ Reg.geom self' = Reg.geom self /\ Reg._code self' = Reg._code self)
  /\ Forall (fun e => Reg.rid self ∈ st' (oid e)) ents
  /\ Forall (fun e => st' (oid e)
                      = if decide (Reg.rid self ∈ st (oid e)) then st (oid e)
                        else st (oid e) ++ [Reg.rid self]) ents
  /\ (forall o, o ∉ map oid ents -> st' o = st o)
  /\ (forall o, Reg.rid self ∈ st o -> st' o = st o).
Proof.
  simpl. repeat split.
  - apply Forall_forall. intros e He. rewrite foldl_back_reference.
    case_decide as H.
    + apply elem_of_app. right. by left.
    + destruct (decide (Reg.rid self ∈ st (oid e))); [done |].
      exfalso. apply H. split; [| done]. by apply list_elem_of_fmap_2.
  - apply Forall_forall. intros e He. rewrite foldl_back_reference.
    destruct (decide (oid e ∈ map oid ents /\ Reg.rid self ∉ st (oid e)))
      as [[_ Hr] | Ha], (decide (Reg.rid self ∈ st (oid e))) as [Hin | Hnin];
      try done.
    exfalso. apply Ha. split; [| done]. by apply list_elem_of_fmap_2.
  - intros o Ho. rewrite foldl_back_reference.
    destruct (decide (o ∈ map oid ents /\ Reg.rid self ∉ st o))
      as [[Ho' _] | _]; done.
  - intros o Ho. rewrite foldl_back_reference.
    destruct (decide (o ∈ map oid ents /\ Reg.rid self ∉ st o))
      as [[_ Hr] | _]; done.
Qed.

(** An entity listed twice is appended twice and refers back once. *)
Example add_entities_sample :
  let r := {| Reg.rid := 5; Reg.entities := []; Reg.name := PStr "north";
              Reg.geom := PNone; Reg._code := PNone |} in
  let st : Reg.RegionsOf := fun o => if decide (o = 2) then [5] else [] in
  let '(r', st') := Reg.add_entities r [Sample.e1; Sample.e2; Sample.e1] st in
  Reg.entities r' = [Sample.e1; Sample.e2; Sample.e1]
  /\ st' 1 = [5] /\ st' 2 = [5] /\ st' 3 = [].
Proof. repeat split. Qed.

Lemma substring_chars (n m : nat) (s : string) :
  String.substring n m s
  = String.string_of_list_ascii
      (take m (drop n (String.list_ascii_of_string s))).
Proof.
  revert n m. induction s as [| c s IH]; intros [| n] [| m]; simpl;
    rewrite ?IH; done.
Qed.

Lemma slice_first (part : string) : Reg.slice 0 1 part = first_chars 1 part.
Proof. unfold Reg.slice, first_chars. by rewrite substring_chars. Qed.

Lemma slice_next_two (part : string) :
  Reg.slice 1 3 part = first_chars 2 (without_first 1 part).
Proof.
  unfold Reg.slice, first_chars, without_first.
  by rewrite substring_chars, String.list_ascii_of_string_of_list_ascii.
Qed.

Lemma replace_underscore_spaced (n : string) :
  Reg.replace_underscore n = spaced n.
Proof.
  unfold spaced. induction n as [| c n IH]; simpl; [done |]. by rewrite IH.
Qed.

Lemma find_space_None (s : string) :
  Reg.find_space s = None -> ~ has_space s.
Proof.
  unfold has_space. induction s as [| c s IH]; simpl.
  - intros _ Hin. by apply elem_of_nil in Hin.
  - destruct (decide (c = " "%char)) as [| Hne]; [done |].
    destruct (Reg.find_space s) as [[b a] |]; [done |].
    intros _ [Heq | Hin]%elem_of_cons; [by apply Hne | by apply IH].
Qed.

Lemma find_space_Some (s before after : string) :
  Reg.find_space s = Some (before, after) ->
  s = before +:+ String " " after /\ ~ has_space before.
Proof.
  unfold has_space. revert before.
  induction s as [| c s IH]; intros before; simpl; [done |].
  destruct (decide (c = " "%char)) as [-> | Hne].
  - intros [= <- <-]. split; [done |]. intros Hin. by apply elem_of_nil in Hin.
  - destruct (Reg.find_space s) as [[b a] |]; [| done].
    intros [= <- <-]. destruct (IH b eq_refl) as [-> Hb]. split; [done |].
    simpl. intros [Heq | Hin]%elem_of_cons; [by apply Hne | by apply Hb].
Qed.

Lemma split_space_1_parts (n : string) :
  name_parts n (Reg.split_space_1 (Reg.replace_underscore n)).
Proof.
  unfold name_parts, Reg.split_space_1. rewrite replace_underscore_spaced.
  destruct (Reg.find_space (spaced n)) as [[b a] |] eqn:Hfind.
  - right. apply find_space_Some in Hfind as [Heq Hb]. by exists b, a.
  - left. by apply find_space_None in Hfind.
Qed.

Section RegionCode.

Variable upper : string -> string.

Lemma split_space_1_length (s : string) :
  1 <= length (Reg.split_space_1 s) <= 2.
Proof.
  unfold Reg.split_space_1. destruct (Reg.find_space s) as [[b a] |]; simpl; lia.
Qed.

Lemma code_set (self : Reg.Region) :
  Reg._code self <> PNone ->
  Reg.code upper self = (self, Ok (Reg._code self)).
Proof. unfold Reg.code. by destruct (Reg._code self). Qed.

Lemma abbrev_part_code (part : string) :
  abbrev upper part = part_code upper part.
Proof. unfold abbrev, part_code. by rewrite slice_first, slice_next_two. Qed.

(** C10: a code given to the constructor is kept in [_code]; a code that is
    set is returned as it is, whatever the name.  Without one, the first
    read makes the code from the name: the name, with a space for every
    underscore, is taken whole when it has no space and is otherwise cut at
    its first space into what stands before and what stands after; the code
    is, for each of these one or two parts in turn, the first character in
    upper case and the two characters after it.  The read stores that
    string, and every later read returns it, whatever the name has
    become. *)
Theorem region_code_cached (self : Reg.Region) :
  (forall r kw st, Reg._code (Reg.init r kw st).1
                   = default PNone (Reg.kw_code kw))
  /\ (Reg._code self <> PNone ->
      forall n, Reg.code upper (Reg.set_name n self)
                = (Reg.set_name n self, Ok (Reg._code self)))
  /\ (forall n, Reg._code self = PNone -> Reg.name self = PStr n ->
      exists c,
        Reg.code upper self = (Reg.set_code (PStr c) self, Ok (PStr c))
        /\ 1 <= length (Reg.split_space_1 (Reg.replace_underscore n)) <= 2
        /\ c = match Reg.split_space_1 (Reg.replace_underscore n) with
               | [p] => abbrev upper p
               | [p; q] => abbrev upper p +:+ abbrev upper q
               | _ => ""
               end
        /\ (forall n',
             Reg.code upper (Reg.set_name n' (Reg.set_code (PStr c) self))
             = (Reg.set_name n' (Reg.set_code (PStr c) self), Ok (PStr c)))
        /\ exists parts,
             name_parts n parts
             /\ 1 <= length parts <= 2
             /\ c = String.concat "" (map (part_code upper) parts)).
Proof.
  split; [| split].
  - intros r kw st. unfold Reg.init. by destruct (Reg.add_entities _ _ _).
  - intros Hc n. by apply (code_set (Reg.set_name n self)).
  - intros n Hc Hn. eexists. split; [| split; [| split; [| split]]].
    + unfold Reg.code. rewrite Hc, Hn. simpl. reflexivity.
    + apply split_space_1_length.
    + unfold Reg.split_space_1, Reg.code_loop.
      by destruct (Reg.find_space _) as [[b a] |].
    + intros n'. by apply code_set.
    + exists (Reg.split_space_1 (Reg.replace_underscore n)).
      split; [apply split_space_1_parts |].
      split; [apply split_space_1_length |].
      unfold Reg.split_space_1, Reg.code_loop.
      destruct (Reg.find_space _) as [[b a] |]; simpl.
      * change (abbrev upper b +:+ abbrev upper a
                = part_code upper b +:+ part_code upper a).
        by rewrite !abbrev_part_code.
      * change (abbrev upper (Reg.replace_underscore n)
                = part_code upper (Reg.replace_underscore n)).
        apply abbrev_part_code.
Qed.

End RegionCode.

Lemma region_code_cached_witness :
  let r := {| Reg.rid := 0; Reg.entities := [];
              Reg.name := PStr "north_rhine westphalia";
              Reg.geom := PNone; Reg._code := PNone |} in
  Reg.code Reg.ascii_upper r
  = (Reg.set_code (PStr "NorRhi") r, Ok (PStr "NorRhi"))
  /\ Reg.code Reg.ascii_upper
       (Reg.set_name PNone (Reg.set_code (PStr "NorRhi") r))
     = (Reg.set_name PNone (Reg.set_code (PStr "NorRhi") r),
        Ok (PStr "NorRhi"))
  /\ exists parts,
       name_parts "north_rhine westphalia" parts
       /\ "NorRhi" = String.concat "" (map (part_code Reg.ascii_upper) parts).
Proof.
  intros r.
  destruct (proj2 (proj2 (region_code_cached Reg.ascii_upper r))
              "north_rhine westphalia" eq_refl eq_refl)
    as (c & Hread & _ & _ & Hlater & parts & Hparts & _ & Hc).
  assert (c = "NorRhi") as Heq.
  { vm_compute in Hread. by injection Hread. }
  rewrite Heq in Hread, Hlater, Hc.
  split; [exact Hread |]. split; [exact (Hlater PNone) |].
  exists parts. split; [exact Hparts | exact Hc].
Defined.

Example region_code_sample :
  let r := {| Reg.rid := 0; Reg.entities := [];
              Reg.name := PStr "north_rhine westphalia";
              Reg.geom := PNone; Reg._code := PNone |} in
  (Reg.code Reg.ascii_upper r).2 = Ok (PStr "NorRhi")
  /\ (Reg.code Reg.ascii_upper (Reg.set_name (PStr "a") r)).2 = Ok (PStr "A")
  /\ (Reg.code Reg.ascii_upper (Reg.set_name (PStr " b_c") r)).2
     = Ok (PStr "B c")
  /\ (Reg.code Reg.ascii_upper (Reg.set_name PNone r)).2
     = Raise (AttributeError "replace").
Proof. repeat split. Qed.

(** ** Simulation parameters *)

(** C5, as the code has it: the constructor raises when [timesteps] is
    missing or [None], and only then.  With any other value, an empty
    sequence included, it returns the record of the values given, with
    ["glpk"], [False] and the empty dict where none was given. *)
Theorem simulation_requires_timesteps (kwargs : gmap string PyVal) :
  (kwargs_get1 kwargs "timesteps" = PNone ->
   Sim.init kwargs = Raise (ValueError "No timesteps defined!"))
  /\ (forall ts, kwargs !! "timesteps" = Some ts -> ts <> PNone ->
      Sim.init kwargs
      = Ok {| Sim.solver := default (PStr "glpk") (kwargs !! "solver");
              Sim.debug := default (PBool false) (kwargs !! "debug");
              Sim.verbose := default (PBool false) (kwargs !! "verbose");
              Sim.objective_options :=
                default (PDict []) (kwargs !! "objective_options");
              Sim.duals := default (PBool false) (kwargs !! "duals");
              Sim.timesteps := ts;
              Sim.relaxed := default (PBool false) (kwargs !! "relaxed");
              Sim.fast_build :=
                default (PBool false) (kwargs !! "fast_build");
              Sim.solve_kwargs :=
                default (PDict []) (kwargs !! "solve_kwargs") |}).
Proof.
  split.
  - intros H. unfold Sim.init. simpl. by rewrite H.
  - intros ts Hts Hne. unfold Sim.init, kwargs_get1, kwargs_get. simpl.
    rewrite Hts. simpl. by destruct ts.
Qed.

Lemma simulation_requires_timesteps_witness :
  Sim.init ∅ = Raise (ValueError "No timesteps defined!")
  /\ exists s,
       Sim.init {[ "timesteps" := PList [PInt 0; PInt 1];
                   "solver" := PStr "gurobi" ]} = Ok s
       /\ Sim.solver s = PStr "gurobi" /\ Sim.debug s = PBool false.
Proof.
  split.
  - apply (proj1 (simulation_requires_timesteps ∅)). reflexivity.
  - eexists. split.
    + apply (proj2 (simulation_requires_timesteps
                      {[ "timesteps" := PList [PInt 0; PInt 1];
                         "solver" := PStr "gurobi" ]})
               (PList [PInt 0; PInt 1])); [reflexivity | discriminate].
    + split; reflexivity.
Defined.

(** C5 as stated fails: an empty sequence of timesteps is accepted. *)
Lemma empty_timesteps_counterexample :
  exists s, Sim.init {[ "timesteps" := PList [] ]} = Ok s
            /\ Sim.timesteps s = PList [].
Proof. eexists. split; reflexivity. Qed.

(** ** More on the container *)

Lemma add_entities_appended (e : Entity) (es : EnergySystem) :
  entities (add e es).1 = entities es ++ [e].
Proof. rewrite add_unfold. by destruct (force (_groups es)) as [f [d | x]]. Qed.

Lemma groups_entities (es : EnergySystem) :
  entities (groups es).1 = entities es.
Proof. unfold groups. by destruct (force (_groups es)). Qed.

Lemma step_entities (op : Op) (es : EnergySystem) :
  entities (step op es).1
  = entities es ++ match op with OAdd e => [e] | ORead => [] end.
Proof.
  destruct op as [e |]; simpl; [apply add_entities_appended |].
  unfold mbind, M_bind. rewrite app_nil_r, <- (groups_entities es).
  by destruct (groups es) as [es' [d | x]].
Qed.

(** X1: a run appends to the entity list the entities it adds, in order:
    all of them when it ends without an exception, and otherwise those up
    to and including the one whose [add] raised. *)
Theorem run_appends_added (ops : list Op) (es : EnergySystem) :
  (exists l, l `prefix_of` adds_of ops
             /\ entities (run ops es).1 = entities es ++ l)
  /\ ((run ops es).2 = Ok tt ->
      entities (run ops es).1 = entities es ++ adds_of ops)
  /\ (forall e x, (add e es).2 = Raise x ->
        entities (add e es).1 = entities es ++ [e]).
Proof.
  split; [| split].
  - revert es. induction ops as [| op ops IH]; intros es.
    + exists []. split; [done |]. simpl. by rewrite app_nil_r.
    + simpl. unfold mbind, M_bind. pose proof (step_entities op es) as Hs.
      destruct (step op es) as [es' [[] | x]]; simpl in *.
      * destruct (IH es') as (l & Hl & Hent). rewrite Hent, Hs.
        exists (match op with OAdd e => [e] | ORead => [] end ++ l).
        split; [by apply prefix_app | by rewrite app_assoc].
      * rewrite Hs. eexists. split; [| done]. by apply prefix_app_r.
  - revert es. induction ops as [| op ops IH]; intros es Hok.
    + simpl. by rewrite app_nil_r.
    + simpl in *. unfold mbind, M_bind in *.
      pose proof (step_entities op es) as Hs.
      destruct (step op es) as [es' [[] | x]]; simpl in *; [| done].
      rewrite (IH es' Hok), Hs. by rewrite app_assoc.
  - intros e x _. apply add_entities_appended.
Qed.

Lemma run_appends_added_witness :
  entities (run [OAdd Sample.e1; ORead; OAdd Sample.e2] Sample.es0).1
  = entities Sample.es0 ++ [Sample.e1; Sample.e2].
Proof.
  apply (proj1 (proj2 (run_appends_added
                         [OAdd Sample.e1; ORead; OAdd Sample.e2]
                         Sample.es0))).
  reflexivity.
Defined.

(** X2: an [add] that raises has appended its entity all the same, and has
    not queued the fold of that entity: what is pending afterwards is what
    was pending before, so the entity is in the entity list and no read
    will group it. *)
Theorem failed_add_appends_without_queueing (e : Entity)
    (es : EnergySystem) (x : Exn) :
  (add e es).2 = Raise x ->
  entities (add e es).1 = entities es ++ [e]
  /\ pending (_groups (add e es).1) = pending (_groups es)
  /\ (groups (add e es).1).2 = (groups (groups es).1).2
  /\ others (add e es).1 = others es.
Proof.
  rewrite add_unfold. unfold groups.
  destruct (_groups es) as [d | e0 d0 gs0] eqn:Hg; simpl; [done |].
  destruct (_regroup e0 d0 gs0) as [d' [y |]]; simpl; [| done].
  intros _. repeat split.
  by destruct (_regroup e0 d' gs0) as [d2 [z |]].
Qed.

Lemma failed_add_appends_without_queueing_witness :
  let es1 :=
    (add Sample.e1 (Sample.with_grouping
                      (raises_on Sample.e1 (UserError 7)))).1 in
  entities (add Sample.e2 es1).1 = [Sample.e1; Sample.e2]
  /\ pending (_groups (add Sample.e2 es1).1) = [Sample.e1].
Proof.
  intros es1.
  destruct (failed_add_appends_without_queueing Sample.e2 es1 (UserError 7)
              eq_refl) as (Hent & Hpend & _).
  split; [exact Hent | exact Hpend].
Defined.

Lemma step_others (op : Op) (es : EnergySystem) :
  others (step op es).1 = others es.
Proof.
  destruct op as [e |]; simpl.
  - rewrite add_unfold. by destruct (force (_groups es)) as [f [d | x]].
  - unfold mbind, M_bind, groups.
    by destruct (force (_groups es)) as [f [d | x]].
Qed.

(** X3: no run of adds and reads, and no assignment to [nodes], changes
    the regions, the simulation, the groupings, the results or the time
    index of the container. *)
Theorem run_leaves_others (ops : list Op) (es : EnergySystem)
    (value : list Entity) :
  others (run ops es).1 = others es
  /\ others (set_nodes value es).1 = others es.
Proof.
  split; [| done]. revert es.
  induction ops as [| op ops IH]; intros es; [done |].
  simpl. unfold mbind, M_bind. pose proof (step_others op es) as Hs.
  destruct (step op es) as [es' [[] | x]]; simpl in *; [| done].
  by rewrite IH.
Qed.

(** X4: a read that returned a mapping has left it in place of the partial:
    the next read returns the same mapping and changes nothing, whatever the
    groupings would do if they were called again. *)
Theorem groups_read_is_cached (es es' : EnergySystem) (d : Groups) :
  groups es = (es', Ok d) ->
  groups es' = (es', Ok d)
  /\ _groups es' = Dict d
  /\ entities es' = entities es.
Proof.
  intros H. split; [by apply groups_Ok_again in H |].
  unfold groups in H. destruct (force (_groups es)) as [f r] eqn:Hf.
  injection H as <- ->. by apply force_callable in Hf as ->.
Qed.

Lemma groups_read_is_cached_witness :
  exists es' d,
    groups (add Sample.e1 Sample.es0).1 = (es', Ok d)
    /\ groups es' = (es', Ok d).
Proof.
  do 2 eexists. split; [reflexivity |].
  eapply (proj1 (groups_read_is_cached (add Sample.e1 Sample.es0).1 _ _ _)).
  Unshelve. reflexivity.
Defined.

Lemma set_entities_nil (es : EnergySystem) :
  set_entities (entities es ++ []) es = es.
Proof. destruct es. unfold set_entities. simpl. by rewrite app_nil_r. Qed.

(** Adding and then reading folds the entities, in order, into the mapping
    a read would have returned before. *)
Lemma add_all_fold (l : list Entity) (es : EnergySystem) (d0 : Groups) :
  (groups es).2 = Ok d0 ->
  match for_entities l (_groupings es) d0 with
  | (d, None) =>
      add_all_then_read l es
      = (set_groups (Dict d) (set_entities (entities es ++ l) es), Ok d)
  | (_, Some x) => (add_all_then_read l es).2 = Raise x
  end.
Proof.
  revert es d0. induction l as [| e l IH]; intros es d0 Hd; simpl.
  - unfold add_all_then_read, mbind, M_bind, mret, M_ret. simpl.
    rewrite set_entities_nil. unfold groups in *.
    destruct (force (_groups es)) as [f r] eqn:Hf. simpl in Hd. subst r.
    by apply force_callable in Hf as ->.
  - assert (add e es
            = (set_groups (Partial e d0 (_groupings es))
                 (set_entities (entities es ++ [e]) es), Ok tt)) as Hadd.
    { rewrite add_unfold. unfold groups in Hd.
      destruct (force (_groups es)) as [f r]. simpl in Hd. by subst r. }
    set (es1 := set_groups (Partial e d0 (_groupings es))
                  (set_entities (entities es ++ [e]) es)) in *.
    assert (add_all_then_read (e :: l) es = add_all_then_read l es1) as ->.
    { unfold add_all_then_read. simpl. unfold mbind, M_bind. simpl.
      unfold mbind, M_bind. by rewrite Hadd. }
    destruct (for_groupings (_groupings es) e d0) as [d1 [x |]] eqn:Hfold.
    + apply run_adds_raises. unfold groups, es1. simpl. unfold _regroup.
      by rewrite Hfold.
    + specialize (IH es1 d1). simpl in IH.
      assert ((groups es1).2 = Ok d1) as Hd1.
      { unfold groups, es1. simpl. unfold _regroup. by rewrite Hfold. }
      specialize (IH Hd1).
      destruct (for_entities l (_groupings es) d1) as [d [x |]]; [done |].
      rewrite IH. unfold es1. simpl. unfold set_groups, set_entities. simpl.
      by rewrite <- app_assoc.
Qed.

(** X5: on a container whose read returns [d0], adding the entities of [l]
    and reading [groups] gives the mapping obtained from [d0] by taking the
    entities in the order of [l] and, for each, the groupings in their
    order; the container then holds that mapping and the longer entity
    list, and is otherwise as before.  If a grouping raises on the way, the
    run raises that exception. *)
Theorem add_all_then_read_folds_in_order (l : list Entity)
    (es : EnergySystem) (d0 : Groups) :
  (groups es).2 = Ok d0 ->
  (forall d, for_entities l (_groupings es) d0 = (d, None) ->
     add_all_then_read l es
     = (set_groups (Dict d) (set_entities (entities es ++ l) es), Ok d))
  /\ (forall d x, for_entities l (_groupings es) d0 = (d, Some x) ->
        (add_all_then_read l es).2 = Raise x).
Proof.
  intros Hd. pose proof (add_all_fold l es d0 Hd) as H.
  split.
  - intros d Hfor. by rewrite Hfor in H.
  - intros d x Hfor. by rewrite Hfor in H.
Qed.

Lemma add_all_then_read_folds_in_order_witness :
  add_all_then_read [Sample.e1; Sample.e2] Sample.es0
  = (set_groups (Dict {[ "a" := One Sample.e1; "b" := One Sample.e2 ]})
       (set_entities [Sample.e1; Sample.e2] Sample.es0),
     Ok {[ "a" := One Sample.e1; "b" := One Sample.e2 ]}).
Proof.
  apply (proj1 (add_all_then_read_folds_in_order [Sample.e1; Sample.e2]
                  Sample.es0 ∅ eq_refl)).
  vm_compute. reflexivity.
Defined.

Section InitIsAddAll.

Context {KeyFn : Type} (Nodes : KeyFn -> Grouping).

(** X6: building a container without entities never raises and calls no
    grouping.  Building it on the entities [l] is the same as building it
    without, adding the entities of [l] one after the other and reading
    [groups]: the same container when this works, and the same exception
    when a grouping raises, which the constructor then raises itself. *)
Theorem init_with_entities_is_add_all (kw : Kwargs KeyFn)
    (l : list Entity) :
  exists es0,
    init Nodes (with_entities None kw) = Ok es0
    /\ _groups es0 = Dict ∅ /\ entities es0 = []
    /\ match init Nodes (with_entities (Some l) kw) with
       | Ok es => add_all_then_read l es0 = (es, Ok (stored (_groups es)))
       | Raise x => (add_all_then_read l es0).2 = Raise x
       end.
Proof.
  eexists. split; [reflexivity |]. split; [done |]. split; [done |].
  unfold init at 1. simpl.
  match goal with |- context [add_all_then_read l ?e] => set (es0 := e) end.
  pose proof (add_all_fold l es0 ∅ eq_refl) as H. simpl in H.
  change (make_groupings Nodes (with_entities None kw))
    with (make_groupings Nodes (with_entities (Some l) kw)) in *.
  destruct (for_entities l _ ∅) as [d [x |]]; [done |]. by rewrite H.
Qed.

End InitIsAddAll.

(** X7: the fold of an entity stops at the first grouping that raises.  The
    groupings after it are not called, what the groupings before it and the
    failing one wrote into the dict stays written, and the fold stays
    pending over the dict as it is now, so the next read runs all the
    groupings on that entity again. *)
Theorem failed_fold_keeps_earlier_writes (es : EnergySystem) (e : Entity)
    (gs1 gs2 : list Grouping) (g : Grouping) (d d1 d2 : Groups) (x : Exn) :
  _groups es = Partial e d (gs1 ++ g :: gs2) ->
  for_groupings gs1 e d = (d1, None) ->
  g e d1 = (d2, Some x) ->
  groups es = (set_groups (Partial e d2 (gs1 ++ g :: gs2)) es, Raise x)
  /\ groups (groups es).1
     = (let '(f, r) := force (Partial e d2 (gs1 ++ g :: gs2)) in
        (set_groups f es, r)).
Proof.
  intros Hg H1 Hfail.
  assert (_regroup e d (gs1 ++ g :: gs2) = (d2, Some x)) as Hr.
  { unfold _regroup. rewrite for_groupings_app, H1. simpl. by rewrite Hfail. }
  assert (groups es = (set_groups (Partial e d2 (gs1 ++ g :: gs2)) es, Raise x))
    as Hread.
  { unfold groups. rewrite Hg. simpl. by rewrite Hr. }
  split; [done |]. rewrite Hread. unfold groups. simpl.
  by destruct (_regroup e d2 (gs1 ++ g :: gs2)) as [d3 [y |]].
Qed.

Lemma failed_fold_keeps_earlier_writes_witness :
  let g := raises_on Sample.e1 (UserError 7) in
  groups (add Sample.e1 (Sample.with_grouping g)).1
  = (set_groups (Partial Sample.e1 {[ "a" := One Sample.e1 ]} [BY_UID; g])
       (add Sample.e1 (Sample.with_grouping g)).1,
     Raise (UserError 7)).
Proof.
  intros g.
  apply (proj1 (failed_fold_keeps_earlier_writes
                  (add Sample.e1 (Sample.with_grouping g)).1 Sample.e1
                  [BY_UID] [] g ∅ {[ "a" := One Sample.e1 ]}
                  {[ "a" := One Sample.e1 ]} (UserError 7)
                  eq_refl eq_refl eq_refl)).
Defined.

(** X8: the loop of the property [groups] ends after one call of the
    partial at most: with room for one iteration or more it gives the
    result of [force], whatever the room; with none it fails exactly on a
    callable field. *)
Theorem groups_loop_runs_once (f : GroupsField) :
  (forall fuel, 1 <= fuel -> groups_while fuel f = Some (force f))
  /\ (groups_while 0 f = None <-> callable f = true)
  /\ (forall f' d, force f = (f', Ok d) -> callable f' = false).
Proof.
  split; [| split].
  - intros [| fuel] Hfuel; [lia |].
    destruct f as [d | e d gs]; simpl; [done |]. unfold call_partial.
    destruct (_regroup e d gs) as [d' [x |]]; [done |]. by destruct fuel.
  - destruct f; simpl; split; done.
  - intros f' d Hf. by apply force_callable in Hf as ->.
Qed.

Lemma groups_loop_runs_once_witness :
  groups_while 5 (Partial Sample.e1 ∅ [BY_UID])
  = Some (force (Partial Sample.e1 ∅ [BY_UID])).
Proof.
  apply (proj1 (groups_loop_runs_once (Partial Sample.e1 ∅ [BY_UID])) 5).
  repeat constructor.
Defined.

(** ** More on regions *)

(** X9: adding two lists of entities one after the other is adding their
    concatenation, for the region and for every entity. *)
Theorem add_entities_compose (self : Reg.Region) (l1 l2 : list Entity)
    (st : Reg.RegionsOf) :
  Reg.add_entities (Reg.add_entities self l1 st).1 l2
    (Reg.add_entities self l1 st).2
  = Reg.add_entities self (l1 ++ l2) st.
Proof.
  unfold Reg.add_entities. simpl. rewrite foldl_app.
  unfold Reg.set_entities. simpl. by rewrite app_assoc.
Qed.

(** X10: [add_entities] keeps the [regions] lists free of duplicates: if
    no entity lists a region twice before the call, none does after it,
    even for an entity given several times. *)
Theorem back_references_stay_unique (self : Reg.Region)
    (ents : list Entity) (st : Reg.RegionsOf) :
  (forall o, NoDup (st o)) ->
  forall o, NoDup ((Reg.add_entities self ents st).2 o).
Proof.
  intros Hst o. simpl. rewrite foldl_back_reference.
  destruct (decide (o ∈ map oid ents /\ Reg.rid self ∉ st o))
    as [[_ Hr] | _]; [| done].
  apply NoDup_app. split; [done |]. split.
  - intros r Hin ->%list_elem_of_singleton. done.
  - apply NoDup_singleton.
Qed.

Lemma back_references_stay_unique_witness :
  NoDup ((Reg.add_entities (named PNone) [Sample.e1; Sample.e1]
            (fun _ => [0])).2 1).
Proof.
  apply (back_references_stay_unique (named PNone) [Sample.e1; Sample.e1]
           (fun _ => [0])).
  intros o. apply NoDup_singleton.
Defined.

(** X11: nothing prevents duplicates in the entity list of the region:
    adding the same entities a second time lists them a second time, while
    the [regions] list of every entity stays as the first call left it. *)
Theorem add_entities_again (self : Reg.Region) (ents : list Entity)
    (st : Reg.RegionsOf) :
  let self1 := (Reg.add_entities self ents st).1 in
  let st1 := (Reg.add_entities self ents st).2 in
  Reg.entities (Reg.add_entities self1 ents st1).1
  = Reg.entities self ++ ents ++ ents
  /\ forall o, (Reg.add_entities self1 ents st1).2 o = st1 o.
Proof.
  simpl. split; [by rewrite app_assoc |]. intros o.
  rewrite (foldl_back_reference _ ents (foldl _ st ents)).
  destruct (decide _) as [[Ho Hr] | _]; [| done].
  exfalso. apply Hr. rewrite foldl_back_reference.
  destruct (decide (o ∈ map oid ents /\ Reg.rid self ∉ st o)) as [_ | Hn].
  - apply elem_of_app. right. by left.
  - destruct (decide (Reg.rid self ∈ st o)) as [Hin | Hnin]; [done |].
    exfalso. by apply Hn.
Qed.

(** X12: the constructor of a region that no entity refers to yet gives a
    region of the given entities, name, geometry and code ([None] for what
    is not given), appends the region to the [regions] list of each given
    entity, once, and leaves the lists of the other entities alone. *)
Theorem region_init_fresh (r : nat) (kw : Reg.Kwargs)
    (st : Reg.RegionsOf) :
  fresh r st ->
  let ents := default [] (Reg.kw_entities kw) in
  (Reg.init r kw st).1
  = {| Reg.rid := r; Reg.entities := ents;
       Reg.name := default PNone (Reg.kw_name kw);
       Reg.geom := default PNone (Reg.kw_geom kw);
       Reg._code := default PNone (Reg.kw_code kw) |}
  /\ Forall (fun e => (Reg.init r kw st).2 (oid e) = st (oid e) ++ [r]) ents
  /\ (forall o, o ∉ map oid ents -> (Reg.init r kw st).2 o = st o).
Proof.
  intros Hfresh ents. unfold Reg.init. simpl. fold ents.
  split; [done |]. split.
  - apply Forall_forall. intros e He. rewrite foldl_back_reference.
    destruct (decide _) as [_ | Hn]; [done |].
    exfalso. apply Hn. split; [by apply list_elem_of_fmap_2 | apply Hfresh].
  - intros o Ho. rewrite foldl_back_reference.
    destruct (decide _) as [[Ho' _] | _]; done.
Qed.

Lemma region_init_fresh_witness :
  (Reg.init 5 {| Reg.kw_entities := Some [Sample.e1; Sample.e2; Sample.e1];
                 Reg.kw_name := Some (PStr "north"); Reg.kw_geom := None;
                 Reg.kw_code := None |} (fun _ => [])).2 1 = [5].
Proof.
  pose proof (proj1 (proj2 (region_init_fresh 5
    {| Reg.kw_entities := Some [Sample.e1; Sample.e2; Sample.e1];
       Reg.kw_name := Some (PStr "north"); Reg.kw_geom := None;
       Reg.kw_code := None |} (fun _ => [])
    (fun o => not_elem_of_nil 5)))) as H.
  apply Forall_cons in H as [H _]. exact H.
Defined.

Lemma replace_underscore_idemp (s : string) :
  Reg.replace_underscore (Reg.replace_underscore s) = Reg.replace_underscore s.
Proof.
  induction s as [| c s IH]; simpl; [done |]. rewrite IH.
  destruct (decide (c = "_"%char)) as [-> | Hne]; [done |].
  by rewrite decide_False.
Qed.

Lemma string_length_app (s1 s2 : string) :
  String.length (s1 +:+ s2) = String.length s1 + String.length s2.
Proof. induction s1 as [| c s1 IH]; simpl; [done |]. by rewrite IH. Qed.

Lemma substring_length_le (n m : nat) (s : string) :
  String.length (String.substring n m s) <= m.
Proof.
  revert n m. induction s as [| c s IH]; intros [| n] [| m]; simpl;
    try lia.
  - specialize (IH 0 m). lia.
  - apply (IH n 0).
  - apply (IH n (S m)).
Qed.

Lemma ascii_upper_length (s : string) :
  String.length (Reg.ascii_upper s) = String.length s.
Proof. induction s as [| c s IH]; simpl; [done |]. by rewrite IH. Qed.

Section MoreCode.

Variable upper : string -> string.

(** X13: an underscore in the name counts as a space: a region named with
    underscores and the region named with spaces in their place get the
    same code. *)
Theorem code_separators_alike (self : Reg.Region) (n : string) :
  (Reg.code upper (Reg.set_name (PStr (Reg.replace_underscore n)) self)).2
  = (Reg.code upper (Reg.set_name (PStr n) self)).2.
Proof.
  unfold Reg.code. simpl. destruct (is_None (Reg._code self)); [| done].
  simpl. by rewrite replace_underscore_idemp.
Qed.

(** X14: when upper-casing does not lengthen a string, a code made from a
    name has six characters at most. *)
Theorem code_length_bound (self : Reg.Region) (n : string) :
  (forall s, String.length (upper s) <= String.length s) ->
  Reg._code self = PNone -> Reg.name self = PStr n ->
  exists c, (Reg.code upper self).2 = Ok (PStr c) /\ String.length c <= 6.
Proof.
  intros Hup Hc Hn. unfold Reg.code. rewrite Hc, Hn. simpl.
  eexists. split; [reflexivity |].
  assert (forall p, String.length (abbrev upper p) <= 3) as Hab.
  { intros p. unfold abbrev. rewrite string_length_app.
    pose proof (Hup (Reg.slice 0 1 p)).
    pose proof (substring_length_le 0 1 p).
    pose proof (substring_length_le 1 2 p).
    unfold Reg.slice in *. simpl in *. lia. }
  unfold Reg.split_space_1, Reg.code_loop.
  destruct (Reg.find_space _) as [[b a] |]; simpl.
  - change (String.length (abbrev upper b +:+ abbrev upper a) <= 6).
    rewrite string_length_app. pose proof (Hab a). pose proof (Hab b). lia.
  - change (String.length (abbrev upper (Reg.replace_underscore n)) <= 6).
    pose proof (Hab (Reg.replace_underscore n)). lia.
Qed.

(** X15: without a code, a read of [code] on a region whose name is not a
    string raises and stores nothing, so the region is as before and a read
    after the name has been set gives the code of that name. *)
Theorem code_error_stores_nothing (self : Reg.Region) :
  Reg._code self = PNone -> (forall n, Reg.name self <> PStr n) ->
  Reg.code upper self = (self, Raise (AttributeError "replace"))
  /\ forall n,
       Reg.code upper (Reg.set_name (PStr n) (Reg.code upper self).1)
       = Reg.code upper (Reg.set_name (PStr n) self).
Proof.
  intros Hc Hn.
  assert (Reg.code upper self = (self, Raise (AttributeError "replace"))) as H.
  { unfold Reg.code. rewrite Hc. simpl.
    destruct (Reg.name self) as [| | | n | |] eqn:Hname; try done.
    by destruct (Hn n). }
  split; [done |]. intros n. by rewrite H.
Qed.

End MoreCode.

Lemma code_length_bound_witness :
  exists c,
    (Reg.code Reg.ascii_upper (named (PStr "north_rhine westphalia"))).2
    = Ok (PStr c) /\ String.length c <= 6.
Proof.
  apply (code_length_bound Reg.ascii_upper
           (named (PStr "north_rhine westphalia")) "north_rhine westphalia").
  - intros s. rewrite ascii_upper_length. lia.
  - reflexivity.
  - reflexivity.
Defined.

Lemma code_error_stores_nothing_witness :
  Reg.code Reg.ascii_upper (named PNone)
  = (named PNone, Raise (AttributeError "replace")).
Proof.
  apply (proj1 (code_error_stores_nothing Reg.ascii_upper (named PNone)
                  eq_refl (fun n => ltac:(discriminate)))).
Defined.

(** ** More on simulation parameters *)

(** X16: the constructor reads nine keyword arguments and ignores all
    others: two calls that agree on those nine have the same outcome. *)
Theorem unknown_kwargs_ignored (kw1 kw2 : gmap string PyVal) :
  Forall (fun key => kw1 !! key = kw2 !! key) simulation_keys ->
  Sim.init kw1 = Sim.init kw2.
Proof.
  intros H. unfold simulation_keys in H.
  repeat (apply Forall_cons in H as [? H]).
  unfold Sim.init, kwargs_get1, kwargs_get. simpl.
  repeat match goal with Heq : kw1 !! _ = _ |- _ => rewrite Heq; clear Heq end.
  reflexivity.
Qed.

Lemma unknown_kwargs_ignored_witness :
  Sim.init {[ "timesteps" := PList [PInt 0]; "colour" := PStr "red" ]}
  = Sim.init {[ "timesteps" := PList [PInt 0] ]}.
Proof.
  apply unknown_kwargs_ignored. repeat constructor.
Defined.

(** ** Time series of prices *)

Section Timeseries.

Context {K : Type} `{Countable K} {Row Param Val : Type}.
Variable getitem : Row -> Param -> result Val.

Lemma timeseries_loop_Ok (items : list (K * Row)) (p : Param)
    (ts ts' : gmap K Val) :
  NoDup items.*1 ->
  Prices.timeseries_loop Row Param Val getitem items p ts = Ok ts' ->
  (forall k v, (k, v) ∈ items ->
     exists x, getitem v p = Ok x /\ ts' !! k = Some x)
  /\ (forall k, k ∉ items.*1 -> ts' !! k = ts !! k).
Proof.
  revert ts. induction items as [| [k v] items IH]; intros ts Hnd Hloop.
  - simpl in Hloop. injection Hloop as <-. split; [| done].
    intros k v Hin. by apply elem_of_nil in Hin.
  - simpl in *. apply NoDup_cons in Hnd as [Hk Hnd].
    destruct (getitem v p) as [x | e] eqn:Hget; [| done].
    destruct (IH _ Hnd Hloop) as [Hin Hout]. split.
    + intros k' v' [[= -> ->] | Hin']%elem_of_cons.
      * exists x. split; [done |]. by rewrite (Hout k Hk), lookup_insert_eq.
      * by apply Hin.
    + intros k' [Hne Hk']%not_elem_of_cons.
      by rewrite (Hout k' Hk'), lookup_insert_ne.
Qed.

Lemma timeseries_loop_total (items : list (K * Row)) (p : Param)
    (ts : gmap K Val) :
  Forall (fun kv => exists x, getitem kv.2 p = Ok x) items ->
  exists ts', Prices.timeseries_loop Row Param Val getitem items p ts = Ok ts'.
Proof.
  intros Hall. revert ts.
  induction Hall as [| [k v] items [x Hx] _ IH]; intros ts; simpl.
  - by eexists.
  - simpl in Hx. rewrite Hx. apply IH.
Qed.

(** X17: when every row of the weather dict can be indexed by the
    parameter, [get_timeseries] returns a dict with the keys of the weather
    dict and no others, which holds for every key what indexing its row
    gave. *)
Theorem get_timeseries_Ok (weather : list (K * Row)) (p : Param) :
  NoDup weather.*1 ->
  Forall (fun kv => exists x, getitem kv.2 p = Ok x) weather ->
  exists ts,
    Prices.get_timeseries Row Param Val getitem weather p = Ok ts
    /\ (forall k v, (k, v) ∈ weather ->
          exists x, getitem v p = Ok x /\ ts !! k = Some x)
    /\ dom ts = list_to_set weather.*1.
Proof.
  intros Hnd Hall. unfold Prices.get_timeseries.
  destruct (timeseries_loop_total weather p ∅ Hall) as [ts Hloop].
  exists ts. split; [done |].
  destruct (timeseries_loop_Ok _ _ _ _ Hnd Hloop) as [Hin Hout].
  split; [done |]. apply set_eq. intros k.
  rewrite elem_of_dom, elem_of_list_to_set. split.
  - intros Hk. destruct (decide (k ∈ weather.*1)) as [| Hn]; [done |].
    rewrite (Hout k Hn), lookup_empty in Hk. by destruct Hk.
  - intros ((k' & v) & -> & Hkv)%list_elem_of_fmap. simpl.
    destruct (Hin _ _ Hkv) as (x & _ & ->). by eexists.
Qed.

(** X18: [get_timeseries] raises exactly when some row cannot be indexed
    by the parameter, and what it raises is the exception of the first such
    row in the order of the weather dict; no dict is returned then. *)
Theorem get_timeseries_Raise (weather : list (K * Row)) (p : Param)
    (e : Exn) :
  Prices.get_timeseries Row Param Val getitem weather p = Raise e <->
  exists l1 k v l2,
    weather = l1 ++ (k, v) :: l2 /\ getitem v p = Raise e
    /\ Forall (fun kv => exists x, getitem kv.2 p = Ok x) l1.
Proof.
  unfold Prices.get_timeseries. generalize (∅ : gmap K Val).
  induction weather as [| [k v] items IH]; intros ts; simpl.
  - split; [done |]. intros (l1 & k & v & l2 & Hl & _). by destruct l1.
  - destruct (getitem v p) as [x | e'] eqn:Hget.
    + rewrite IH. split.
      * intros (l1 & k' & v' & l2 & -> & Hv & Hl1).
        exists ((k, v) :: l1), k', v', l2. split; [done |]. split; [done |].
        constructor; [by exists x | done].
      * intros (l1 & k' & v' & l2 & Hl & Hv & Hl1).
        destruct l1 as [| kv l1]; simpl in Hl.
        -- injection Hl as -> -> ->. congruence.
        -- injection Hl as <- ->. apply Forall_cons in Hl1 as [_ Hl1].
           by exists l1, k', v', l2.
    + split.
      * intros [= ->]. exists [], k, v, items. by repeat split.
      * intros (l1 & k' & v' & l2 & Hl & Hv & Hl1).
        destruct l1 as [| kv l1]; simpl in Hl.
        -- injection Hl as -> -> ->. congruence.
        -- injection Hl as <- ->. apply Forall_cons in Hl1 as [[x Hx] _].
           simpl in Hx. congruence.
Qed.

End Timeseries.

Lemma get_timeseries_Ok_witness :
  exists ts,
    Prices.get_timeseries (K := nat) _ _ _ Prices.dict_getitem
      Prices.sample_weather "temp" = Ok ts
    /\ (forall k v, (k, v) ∈ Prices.sample_weather ->
          exists x, Prices.dict_getitem v "temp" = Ok x /\ ts !! k = Some x)
    /\ dom ts = list_to_set Prices.sample_weather.*1.
Proof.
  apply (get_timeseries_Ok Prices.dict_getitem Prices.sample_weather "temp").
  - apply (bool_decide_unpack _). vm_compute. exact I.
  - repeat constructor; by eexists.
Defined.

Example get_timeseries_sample :
  Prices.get_timeseries (K := nat) _ _ _ Prices.dict_getitem
    Prices.sample_weather "temp" = Ok {[ 0 := 3%Z; 1 := 4%Z; 2 := 5%Z ]}
  /\ Prices.get_timeseries (K := nat) _ _ _ Prices.dict_getitem
       Prices.sample_weather "wind" = Raise (UserError 0)
  /\ Prices.get_timeseries (K := nat) _ _ _ Prices.dict_getitem [] "wind"
     = Ok ∅.
Proof. repeat split; vm_compute; reflexivity. Qed.
